(** * The windowing pipeline of the virtual scroll grid (src/pipeline.ts)

    A shallow embedding of the pure functions of [pipeline.ts] and of the
    streams of its pipeline, followed by the properties that the
    specification states about them (part 2) and by further properties that
    the code has (part 3).

    Conventions.
    - A JavaScript [number] that measures pixels (heights, gaps, widths) is a
      rational [Q]; a [number] that counts (columns, offsets, lengths, page
      numbers, page sizes) is an integer [Z].  Quotients of rationals are
      exact.  What the code computes from a quotient that was rounded to a
      double is stated over [Binary64], where heights and gaps are doubles
      and [+] and [/] are the operations of IEEE 754.
    - A division or a remainder whose divisor is zero yields [NaN] or an
      infinity in JavaScript.  The model has no such values: these operations
      are partial, and a function that would compute with [NaN] or an
      infinity returns [None].
    - An array is a list, of any length.  [undefined] is [None] in the type
      [option A] of item values.
    - A render slot is an object.  Where identity matters (the recycler) a
      slot is a reference and a store gives the contents of every object. *)

From Stdlib Require Import QArith Qround Qabs Qminmax Lqa.
From Stdlib Require PrimFloat SpecFloat FloatOps.
Import PrimFloat.PrimFloatNotations.
From stdpp Require Import base decidable option list numbers strings gmap.

Local Open Scope Z_scope.

(** * Part 1: the program *)

(** ** Numbers *)

Module Num.

(** [a / b]: no finite value when [b] is zero. *)
Definition div (a b : Q) : option Q :=
  if Qeq_bool b 0 then None else Some (a / b)%Q.

(** [a % b] on integers: the remainder has the sign of the dividend. *)
Definition rem (a b : Z) : option Z :=
  if decide (b = 0) then None else Some (a `rem` b).

(** [g && e] where [g] is a number and [e] evaluates to an integer: a falsy
    [g] is zero, and zero is then the value of the expression. *)
Definition and_then (g : Q) (e : option Z) : option Z :=
  if Qeq_bool g 0 then Some 0 else e.

End Num.

(** ** JavaScript arrays and maps *)

(** The identity of an object. *)
Definition ref : Type := nat.

Module Js.

(** The clamping of a relative index that [Array.prototype.slice] and
    [Array.prototype.splice] share: a negative index counts from the end. *)
Definition relative (len i : Z) : Z :=
  if decide (i < 0) then Z.max (len + i) 0 else Z.min i len.

(** [new Array (n).fill (x)], for an integer [n] that is not negative. *)
Definition fill {X : Type} (n : Z) (x : X) : list X := replicate (Z.to_nat n) x.

End Js.

(** A [Map] from objects to objects: its entries in insertion order, keys
    compared by identity. *)
Module JsMap.

Definition t : Type := list (ref * ref).

Definition has (k : ref) (m : t) : bool := bool_decide (k ∈ m.*1).

(** [m.set (k, v)]: a known key keeps its place and takes the new value. *)
Definition set (k v : ref) (m : t) : t :=
  if has k m
  then (λ e : ref * ref, if decide (e.1 = k) then (k, v) else e) <$> m
  else m ++ [(k, v)].

(** [new Map (entries)]. *)
Definition of_entries (entries : list (ref * ref)) : t :=
  foldl (λ m e, set e.1 e.2 m) [] entries.

(** [m.get (k)], with [None] for [undefined]. *)
Definition get (k : ref) (m : t) : option ref :=
  (λ found : nat * (ref * ref), found.2.2) <$> list_find (λ e, e.1 = k) m.

Definition keys (m : t) : list ref := m.*1.
Definition values (m : t) : list ref := m.*2.

End JsMap.

(** ** The functions of Ramda that the pipeline uses *)

Module R.

Section Lists.
Context {X : Type}.
Implicit Types l elts : list X.

(** [slice (from, to, l)] is [Array.prototype.slice.call (l, from, to)]. *)
Definition slice (from to : Z) l : list X :=
  let len := Z.of_nat (length l) in
  let k := Js.relative len from in
  let final := Js.relative len to in
  take (Z.to_nat (final - k)) (drop (Z.to_nat k) l).

(** [remove (start, count, l)]: a copy of [l] after [splice (start, count)]. *)
Definition remove (start count : Z) l : list X :=
  let len := Z.of_nat (length l) in
  let actualStart := Js.relative len start in
  let actualDeleteCount := Z.min (Z.max count 0) (len - actualStart) in
  take (Z.to_nat actualStart) l
    ++ drop (Z.to_nat (actualStart + actualDeleteCount)) l.

(** [insertAll (idx, elts, l)]: an index outside [0, length) appends. *)
Definition insertAll (idx : Z) elts l : list X :=
  let len := Z.of_nat (length l) in
  let idx := if decide (idx < len ∧ 0 ≤ idx) then idx else len in
  slice 0 idx l ++ elts ++ slice idx len l.

(** [zip (l, k)]: as long as the shorter argument. *)
Definition zip {Y : Type} (l : list X) (k : list Y) : list (X * Y) :=
  base.zip l k.

End Lists.

Section Objects.
Context {O : Type} `{EqDecision O}.
Implicit Types (s : ref → O) (xs first : list ref).

(** [equals (a, b)] on two objects compares their contents. *)
Definition equals s (a b : ref) : bool := bool_decide (s a = s b).

(** The membership test of Ramda's internal set: some element of [xs]
    equals [x]. *)
Definition includes s (x : ref) xs : bool := existsb (equals s x) xs.

(** The loop of [difference] over its first argument.  [toFilterOut] is the
    set that starts as the second argument and takes every element that is
    put out. *)
Fixpoint difference_loop s (toFilterOut first : list ref) : list ref :=
  match first with
  | [] => []
  | x :: rest =>
      if includes s x toFilterOut
      then difference_loop s toFilterOut rest
      else x :: difference_loop s (toFilterOut ++ [x]) rest
  end.

Definition difference s (first second : list ref) : list ref :=
  difference_loop s second first.

(** [without (xs, l)]: [l] less every element that equals one of [xs]. *)
Definition without s xs (l : list ref) : list ref :=
  filter (λ x, includes s x xs = false) l.

End Objects.

End R.

(** ** Measurements and the buffer window

    [getBufferMeta] over rationals, with exact quotients.  It carries what
    does not depend on how a quotient is rounded: the guard on an item
    height of zero, the sign of the offset, its growth with the height
    above the window.  The window that the code computes from doubles is
    [Binary64.getBufferMeta], further down. *)

Record ResizeMeasurement : Type := {
  rowGap : Q;
  columns : Z;
  itemHeightWithGap : Q;
  itemWidthWithGap : Q;
}.

Record BufferMeta : Type := {
  bufferedOffset : Z;
  bufferedLength : Z;
}.

Definition getBufferMeta (windowInnerHeight : Q)
    (heightAboveWindow : Q) (m : ResizeMeasurement) : option BufferMeta :=
  rowsInView ←
    Num.and_then (itemHeightWithGap m)
      (q ← Num.div (windowInnerHeight + rowGap m)%Q (itemHeightWithGap m);
       Some (Qceiling q + 1));
  let length := rowsInView * columns m in
  rowsBeforeView ←
    Num.and_then (itemHeightWithGap m)
      (q ← Num.div (heightAboveWindow + rowGap m)%Q (itemHeightWithGap m);
       Some (Qfloor q));
  let offset := rowsBeforeView * columns m in
  let bufferedOffset := Z.max (offset - length `div` 2) 0 in
  let bufferedLength := length * 2 in
  Some {| bufferedOffset := bufferedOffset; bufferedLength := bufferedLength |}.

(** ** The page resolver *)

(** RxJS's [range (start, count)], a cold synchronous observable, as the list
    of the values it emits: nothing for a count that is not positive,
    otherwise [start], [start + 1], ... below [start + count]. *)
Definition range (start count : Z) : list Z :=
  if decide (count ≤ 0) then [] else seqZ start count.

Definition getObservableOfVisiblePageNumbers (bm : BufferMeta)
    (length pageSize : Z) : option (list Z) :=
  startPage ←
    Qfloor <$> Num.div (inject_Z (bufferedOffset bm)) (inject_Z pageSize);
  endPage ←
    Qceiling <$>
      Num.div (inject_Z (Z.min (bufferedOffset bm + bufferedLength bm) length))
        (inject_Z pageSize);
  let numberOfPages := endPage - startPage in
  Some (range startPage numberOfPages).

(** ** The item accumulator *)

(** A value of the collection: [None] is [undefined]. *)
Abbreviation Value A := (option A) (only parsing).

Record ItemsByPage {A : Type} : Type := {
  pageNumber : Z;
  items : list (Value A);
}.
Arguments ItemsByPage : clear implicits.

Section Accumulator.
Context {A : Type}.

(** [concat (allItems, allItemsFill)]: the prior collection with its fill of
    [undefined] up to [length]. *)
Definition padded (allItems : list (Value A)) (length : Z) : list (Value A) :=
  allItems ++ Js.fill (Z.max (length - Z.of_nat (List.length allItems)) 0) None.

(** [normalizedItems]: the page cut or filled to [pageSize] items. *)
Definition normalized (page : ItemsByPage A) (pageSize : Z) : list (Value A) :=
  R.slice 0 pageSize (items page)
    ++ Js.fill (Z.max (pageSize - Z.of_nat (List.length (items page))) 0) None.

Definition accumulateAllItems (allItems : list (Value A))
    (arg : ItemsByPage A * Z * Z) : list (Value A) :=
  let '(page, length, pageSize) := arg in
  let allItemsFill :=
    Js.fill (Z.max (length - Z.of_nat (List.length allItems)) 0) None in
  let pageFill :=
    Js.fill (Z.max (pageSize - Z.of_nat (List.length (items page))) 0) None in
  let normalizedItems := R.slice 0 pageSize (items page) ++ pageFill in
  R.slice 0 length
    (R.insertAll (pageNumber page * pageSize) normalizedItems
       (R.remove (pageNumber page * pageSize) pageSize
          (allItems ++ allItemsFill))).

End Accumulator.

(** ** The visible-item projector *)

Record Style : Type := {
  transform : string;
  gridArea : string;
}.

Record InternalItem {A : Type} : Type := {
  index : Z;
  value : Value A;
  style : option Style;
}.
Arguments InternalItem : clear implicits.

#[global] Instance Style_eq_dec : EqDecision Style.
Proof. solve_decision. Defined.

#[global] Instance InternalItem_eq_dec {A} `{EqDecision A} :
  EqDecision (InternalItem A).
Proof. solve_decision. Defined.

Section Projector.
Context {A : Type}.

(** The conversion of a number to a string that a template literal applies. *)
Variable number_to_string : Q → string.

(** The template [translate(${x}px, ${y}px)]. *)
Definition translate (x y : Q) : string :=
  "translate(" +:+ number_to_string x +:+ "px, "
    +:+ number_to_string y +:+ "px)".

(** The callback of the indexed map. *)
Definition slot (bm : BufferMeta) (m : ResizeMeasurement)
    (localIndex : nat) (value : Value A) : option (InternalItem A) :=
  let index := bufferedOffset bm + Z.of_nat localIndex in
  x ← (λ r, inject_Z r * itemWidthWithGap m)%Q <$> Num.rem index (columns m);
  y ← (λ q, inject_Z (Qfloor q) * itemHeightWithGap m)%Q
        <$> Num.div (inject_Z index) (inject_Z (columns m));
  Some {| index := index;
          value := value;
          style := Some {| gridArea := "1/1"; transform := translate x y |} |}.

Definition getVisibleItems (bm : BufferMeta) (m : ResizeMeasurement)
    (allItems : list (Value A)) : option (list (InternalItem A)) :=
  mapM id
    (imap (slot bm m)
       (R.slice (bufferedOffset bm) (bufferedOffset bm + bufferedLength bm)
          allItems)).

(** The slot of index [i] in the words of the specification: the value of the
    collection at [i], [undefined] where there is none, and the position
    [((i mod columns) * itemWidthWithGap, floor (i / columns) * itemHeightWithGap)]. *)
Definition slot_at (m : ResizeMeasurement) (allItems : list (Value A))
    (i : Z) : InternalItem A :=
  {| index := i;
     value := default None (allItems !! Z.to_nat i);
     style :=
       Some {| gridArea := "1/1";
               transform :=
                 translate (inject_Z (i `mod` columns m) * itemWidthWithGap m)
                           (inject_Z (i `div` columns m) * itemHeightWithGap m)
            |} |}.

End Projector.

(** ** The buffer recycler *)

(** The contents of every slot object. *)
Definition store (A : Type) : Type := ref → InternalItem A.

Definition accumulateBuffer {A} `{EqDecision A} (s : store A)
    (buffer visibleItems : list ref) : list ref :=
  let itemsToAdd := R.difference s visibleItems buffer in
  let itemsFreeToUse := R.difference s buffer visibleItems in
  let replaceMap := JsMap.of_entries (R.zip itemsFreeToUse itemsToAdd) in
  let itemsToBeReplaced := JsMap.keys replaceMap in
  let itemsToReplaceWith := JsMap.values replaceMap in
  let itemsToDelete := R.difference s itemsFreeToUse itemsToBeReplaced in
  let itemsToAppend := R.difference s itemsToAdd itemsToReplaceWith in
  ((λ item, default item (JsMap.get item replaceMap))
     <$> R.without s itemsToDelete buffer)
  ++ itemsToAppend.

(** ** The page-number stream

    [pageNumber$] is

      pageProviderDebounceTime$.pipe(
        switchMap((time) =>
          visiblePageNumbers$.pipe(time === 0 ? identity : debounceTime(time))),
        mergeAll(),
        distinct(identity, merge(pageSize$, pageProvider$)))

    over [visiblePageNumbers$], the ranges that
    [getObservableOfVisiblePageNumbers] makes of the latest values of
    [bufferMeta$], [length$] and [pageSize$].

    The model is this stream for a debounce time of [0] that is known when
    [pageNumber$] is subscribed to and stays: [switchMap] then subscribes
    once, at once, to [visiblePageNumbers$] itself, and [mergeAll] passes on
    the page numbers of a range as soon as the range arrives, a range being
    synchronous.  The inputs are multicast: JavaScript runs one callback at
    a time, so a run is a sequence of emissions of [bufferMeta$], [length$],
    [pageSize$] and [pageProvider$], and each emission is handed to the
    subscribers of its stream in the order in which they subscribed.
    [distinct] subscribes to its source before it subscribes to its flush
    notifier.  An emission of [pageSize$] is therefore handled by
    [combineLatest] first, and the page numbers that follow from it meet
    the keys that [distinct] remembers; the notifier clears the keys
    afterwards. *)

Inductive emission : Type :=
  | BufferMetaEmits (bm : BufferMeta)
  | LengthEmits (length : Z)
  | PageSizeEmits (pageSize : Z)
  | PageProviderEmits.

(** The emissions of [merge (pageSize$, pageProvider$)]. *)
Definition is_flush (e : emission) : bool :=
  match e with
  | BufferMetaEmits _ | LengthEmits _ => false
  | PageSizeEmits _ | PageProviderEmits => true
  end.

(** What the operators of [pageNumber$] hold between two emissions: the
    latest value of every input of [combineLatest], if it has emitted, and
    the set of keys of [distinct]. *)
Record subscription : Type := {
  latestBufferMeta : option BufferMeta;
  latestLength : option Z;
  latestPageSize : option Z;
  distinctKeys : gset Z;
}.

Definition subscribed : subscription :=
  {| latestBufferMeta := None; latestLength := None; latestPageSize := None;
     distinctKeys := ∅ |}.

(** [combineLatest] takes the value of an input of its own. *)
Definition combineLatest_next (st : subscription) (e : emission)
    : subscription :=
  match e with
  | BufferMetaEmits bm =>
      {| latestBufferMeta := Some bm; latestLength := latestLength st;
         latestPageSize := latestPageSize st; distinctKeys := distinctKeys st |}
  | LengthEmits length =>
      {| latestBufferMeta := latestBufferMeta st; latestLength := Some length;
         latestPageSize := latestPageSize st; distinctKeys := distinctKeys st |}
  | PageSizeEmits pageSize =>
      {| latestBufferMeta := latestBufferMeta st;
         latestLength := latestLength st;
         latestPageSize := Some pageSize; distinctKeys := distinctKeys st |}
  | PageProviderEmits => st
  end.

(** The page numbers that [combineLatest], [map] and [mergeAll] deliver for
    an emission of one of the three inputs: none until every input has
    emitted, then the range of the latest values. *)
Definition visiblePageNumbers (st : subscription) : option (list Z) :=
  match latestBufferMeta st, latestLength st, latestPageSize st with
  | Some bm, Some length, Some pageSize =>
      getObservableOfVisiblePageNumbers bm length pageSize
  | _, _, _ => Some []
  end.

(** The subscriber of [distinct] to its source, over the values of a range:
    a value whose key is new is remembered and passed on. *)
Fixpoint distinct_next (keys : gset Z) (values : list Z) : gset Z * list Z :=
  match values with
  | [] => (keys, [])
  | n :: rest =>
      if decide (n ∈ keys) then distinct_next keys rest
      else
        let '(final, out) := distinct_next ({[n]} ∪ keys) rest in
        (final, n :: out)
  end.

(** The first subscription of [distinct], to its source. *)
Definition source_next (st : subscription) (e : emission)
    : option (subscription * list Z) :=
  match e with
  | PageProviderEmits => Some (st, [])
  | _ =>
      let st := combineLatest_next st e in
      values ← visiblePageNumbers st;
      let '(keys, out) := distinct_next (distinctKeys st) values in
      Some ({| latestBufferMeta := latestBufferMeta st;
               latestLength := latestLength st;
               latestPageSize := latestPageSize st;
               distinctKeys := keys |}, out)
  end.

(** The second subscription of [distinct], to its flush notifier. *)
Definition flushes_next (st : subscription) (e : emission) : subscription :=
  if is_flush e
  then {| latestBufferMeta := latestBufferMeta st;
          latestLength := latestLength st;
          latestPageSize := latestPageSize st;
          distinctKeys := ∅ |}
  else st.

(** One emission of an input: the next state, and what [pageNumber$] emits. *)
Definition pageNumber_next (st : subscription) (e : emission)
    : option (subscription * list Z) :=
  '(st, out) ← source_next st e;
  Some (flushes_next st e, out).

(** A run: the last state, and what [pageNumber$] emits for every emission
    of an input. *)
Fixpoint pageNumber_run (st : subscription) (es : list emission)
    : option (subscription * list (list Z)) :=
  match es with
  | [] => Some (st, [])
  | e :: rest =>
      '(st, out) ← pageNumber_next st e;
      '(final, outs) ← pageNumber_run st rest;
      Some (final, out :: outs)
  end.

(** [pageNumber$] since subscription. *)
Definition pageNumber_stream (es : list emission) : option (list (list Z)) :=
  snd <$> pageNumber_run subscribed es.

(** The page numbers of a run by epoch.  An emission of [pageSize$] or of
    [pageProvider$] starts an epoch, which holds what is emitted from then
    on; [current] holds the epoch that is open. *)
Fixpoint epochs_loop (current : list Z) (es : list emission)
    (outs : list (list Z)) : list (list Z) :=
  match es, outs with
  | e :: es, out :: outs =>
      if is_flush e then current :: epochs_loop out es outs
      else epochs_loop (current ++ out) es outs
  | _, _ => [current]
  end.

Definition epochs (es : list emission) (outs : list (list Z))
    : list (list Z) :=
  epochs_loop [] es outs.

(** ** Measuring the grid

    The functions that read the layout take DOM objects.  Here an element is
    what the function reads from it: the top of its bounding box, or its
    computed style as a function from property names to values. *)

Module JsString.

(** The space character. *)
Definition space : Ascii.ascii := Ascii.ascii_of_nat 32.

(** The loop of [s.split (sep)] for a separator of one character; [piece]
    holds the characters since the last separator. *)
Fixpoint split_loop (sep : Ascii.ascii) (piece s : string) : list string :=
  match s with
  | EmptyString => [piece]
  | String c rest =>
      if decide (c = sep) then piece :: split_loop sep EmptyString rest
      else split_loop sep (piece +:+ String c EmptyString) rest
  end.

Definition split (sep : Ascii.ascii) (s : string) : list string :=
  split_loop sep EmptyString s.

(** The number of occurrences of a character. *)
Fixpoint count (sep : Ascii.ascii) (s : string) : nat :=
  match s with
  | EmptyString => 0
  | String c rest => (if decide (c = sep) then 1 else 0) + count sep rest
  end.

End JsString.

(** [Math.abs (Math.min (top, 0))], where [top] is the top of the bounding
    box of the element. *)
Definition computeHeightAboveWindowOf (top : Q) : Q := Qabs (Qmin top 0).

Module Grid.

Record GridMeasurement : Type := {
  colGap : Q;
  rowGap : Q;
  columns : Z;
}.

End Grid.

Record DOMRectReadOnly : Type := {
  height : Q;
  width : Q;
}.

Section Measuring.

(** [parseInt], with [None] for [NaN]. *)
Variable parseInt : string → option Z.

(** [parseInt (v) || 0]: zero for [NaN]. *)
Definition parseInt_or_zero (v : string) : Q :=
  inject_Z (default 0 (parseInt v)).

Definition getGridMeasurement (computedStyle : string → string)
    : Grid.GridMeasurement :=
  {| Grid.rowGap := parseInt_or_zero (computedStyle "row-gap");
     Grid.colGap := parseInt_or_zero (computedStyle "column-gap");
     Grid.columns :=
       Z.of_nat (length (JsString.split JsString.space
                           (computedStyle "grid-template-columns"))) |}.

Definition getResizeMeasurement (computedStyle : string → string)
    (rect : DOMRectReadOnly) : ResizeMeasurement :=
  let g := getGridMeasurement computedStyle in
  {| rowGap := Grid.rowGap g;
     columns := Grid.columns g;
     itemHeightWithGap := (height rect + Grid.rowGap g)%Q;
     itemWidthWithGap := (width rect + Grid.colGap g)%Q |}.

End Measuring.

Definition getContentHeight (m : ResizeMeasurement) (length : Z) : option Q :=
  q ← Num.div (inject_Z length) (inject_Z (columns m));
  Some (itemHeightWithGap m * inject_Z (Qceiling q) - rowGap m)%Q.

(** ** The streams of the pipeline

    A stream is the list of its emissions in order. *)

(** RxJS's [scan (f, seed)]: every accumulated value is emitted. *)
Fixpoint scan {S X : Type} (f : S → X → S) (seed : S) (l : list X) : list S :=
  match l with
  | [] => []
  | x :: rest => f seed x :: scan f (f seed x) rest
  end.

(** RxJS's [distinctUntilChanged (equals)]: a value is passed on unless it
    equals the one passed on last. *)
Fixpoint distinctUntilChanged_loop {X : Type} `{EqDecision X}
    (previous : option X) (l : list X) : list X :=
  match l with
  | [] => []
  | x :: rest =>
      if decide (previous = Some x)
      then distinctUntilChanged_loop previous rest
      else x :: distinctUntilChanged_loop (Some x) rest
  end.

Definition distinctUntilChanged {X : Type} `{EqDecision X} (l : list X)
    : list X :=
  distinctUntilChanged_loop None l.

#[global] Instance BufferMeta_eq_dec : EqDecision BufferMeta.
Proof. solve_decision. Defined.

(** [bufferMeta$]: [getBufferMeta] over the latest height above the window
    and the latest measurement, without repetitions. *)
Definition bufferMeta_stream (windowInnerHeight : Q)
    (latest : list (Q * ResizeMeasurement)) : list (option BufferMeta) :=
  distinctUntilChanged
    ((λ hm, getBufferMeta windowInnerHeight hm.1 hm.2) <$> latest).

(** ** The buffer window in binary64

    [getBufferMeta] divides two doubles and hands the rounded quotient to
    [Math.ceil] and [Math.floor].  Here heights and gaps are doubles, [+] and
    [/] are the operations of IEEE 754, and the integers that follow are
    computed as long as they are exact in a double. *)

Module Binary64.
Import PrimFloat SpecFloat FloatOps.

(** The integer [± m] of the finite double [± m * 2 ^ e]. *)
Definition signed (s : bool) (m : positive) : Z :=
  if s then Z.neg m else Z.pos m.

(** [Math.floor (x)] for a finite [x]. *)
Definition floor (x : float) : option Z :=
  match Prim2SF x with
  | S754_zero _ => Some 0
  | S754_finite s m e => Some (Z.shiftl (signed s m) e)
  | S754_infinity _ | S754_nan => None
  end.

(** [Math.ceil (x)] for a finite [x]. *)
Definition ceil (x : float) : option Z :=
  match Prim2SF x with
  | S754_zero _ => Some 0
  | S754_finite s m e => Some (- Z.shiftl (- signed s m) e)
  | S754_infinity _ | S754_nan => None
  end.

(** The value of a finite double. *)
Definition to_Q (x : float) : option Q :=
  match Prim2SF x with
  | S754_zero _ => Some 0%Q
  | S754_finite s m e => Some (inject_Z (signed s m) * 2 ^ e)%Q
  | S754_infinity _ | S754_nan => None
  end.

(** [0 < x] and [0 <= x]. *)
Definition is_positive (x : float) : bool :=
  match Prim2SF x with
  | S754_finite false _ _ | S754_infinity false => true
  | _ => false
  end.

Definition is_nonnegative (x : float) : bool :=
  match Prim2SF x with
  | S754_zero _ | S754_finite false _ _ | S754_infinity false => true
  | _ => false
  end.

(** The integers between which every integer is a double: a sum, a
    difference or a product of two of them that is again one of them is
    computed exactly. *)
Definition safe (n : Z) : Prop := - 2 ^ 53 ≤ n ≤ 2 ^ 53.

#[global] Instance safe_dec (n : Z) : Decision (safe n).
Proof. unfold safe. apply _. Defined.

(** An integer result: [None] when it may have been rounded. *)
Definition integer (n : Z) : option Z :=
  if decide (safe n) then Some n else None.

(** [g && e] where [e] evaluates to an integer: zero, of either sign, and
    [NaN] are falsy, and a falsy [g] is the value of the expression. *)
Definition and_then (g : float) (e : option Z) : option Z :=
  match Prim2SF g with
  | S754_zero _ => Some 0
  | S754_nan => None
  | S754_finite _ _ _ | S754_infinity _ => e
  end.

Record ResizeMeasurement : Type := {
  rowGap : float;
  columns : Z;
  itemHeightWithGap : float;
  itemWidthWithGap : float;
}.

(** [None]: the window holds [NaN], an infinity, or an integer that may
    have been rounded. *)
Definition getBufferMeta (windowInnerHeight : float)
    (heightAboveWindow : float) (m : ResizeMeasurement) : option BufferMeta :=
  cols ← integer (columns m);
  rowsInView ←
    and_then (itemHeightWithGap m)
      (c ← ceil ((windowInnerHeight + rowGap m) / itemHeightWithGap m)%float;
       integer (c + 1));
  length ← integer (rowsInView * cols);
  rowsBeforeView ←
    and_then (itemHeightWithGap m)
      (floor ((heightAboveWindow + rowGap m) / itemHeightWithGap m)%float);
  offset ← integer (rowsBeforeView * cols);
  difference ← integer (offset - length `div` 2);
  let bufferedOffset := Z.max difference 0 in
  bufferedLength ← integer (length * 2);
  Some {| bufferedOffset := bufferedOffset; bufferedLength := bufferedLength |}.

(** [bufferMeta$] over doubles. *)
Definition bufferMeta_stream (windowInnerHeight : float)
    (latest : list (float * ResizeMeasurement)) : list (option BufferMeta) :=
  distinctUntilChanged
    ((λ hm, getBufferMeta windowInnerHeight hm.1 hm.2) <$> latest).

(** Samples: a viewport of [600] pixels, items of [64.81] pixels with
    their gap, and heights above the window: [15674.02], and [15670] and
    [15674] in the row before. *)
Definition sample_viewport : float := 600.

Definition sample_measurement : ResizeMeasurement :=
  {| rowGap := 10; columns := 3;
     itemHeightWithGap := 0x1.033d70a3d70a4p+6; itemWidthWithGap := 210 |}.

Definition sample_height : float := 0x1.e9d028f5c28f6p+13.

Definition sample_row : float * float := (15670%float, 15674%float).

Definition sample_scroll : list (float * ResizeMeasurement) :=
  [(100%float, sample_measurement); (sample_height, sample_measurement)].

End Binary64.

(** The value that the promise of [callPageProvider] resolves to, for a
    provider whose promise resolves. *)
Definition callPageProvider {A : Type} (pageNumber pageSize : Z)
    (pageProvider : Z → Z → list (Value A)) : ItemsByPage A :=
  {| pageNumber := pageNumber; items := pageProvider pageNumber pageSize |}.

(** [allItems$]: the fold of [accumulateAllItems] from the empty collection
    over the latest page, total length and page size. *)
Definition allItems_stream {A : Type}
    (latest : list (ItemsByPage A * Z * Z)) : list (list (Value A)) :=
  scan accumulateAllItems [] latest.

(** The collection after the pages of [pages] have arrived, in this order,
    under one total length and one page size. *)
Definition fold_pages {A : Type} (totalLength pageSize : Z)
    (allItems : list (Value A)) (pages : list (ItemsByPage A))
    : list (Value A) :=
  foldl (λ acc page, accumulateAllItems acc (page, totalLength, pageSize))
    allItems pages.

(** [buffer$]: the fold of [accumulateBuffer] from the empty buffer over the
    projections. *)
Definition buffer_stream {A : Type} `{EqDecision A} (s : store A)
    (projections : list (list ref)) : list (list ref) :=
  scan (accumulateBuffer s) [] projections.

(** ** Sample inputs *)

Definition sample_measurement : ResizeMeasurement :=
  {| rowGap := 10; columns := 3;
     itemHeightWithGap := 110; itemWidthWithGap := 210 |}.

Definition flat_measurement : ResizeMeasurement :=
  {| rowGap := 10; columns := 3;
     itemHeightWithGap := 0 # 5; itemWidthWithGap := 210 |}.

Definition sample_window : BufferMeta :=
  {| bufferedOffset := 25; bufferedLength := 50 |}.

(** A stand-in for the conversion of numbers to strings. *)
Definition sample_number_to_string (q : Q) : string :=
  if Qeq_bool q 0 then "0" else "n".

Definition sample_collection : list (Value nat) :=
  [Some 5%nat; None; Some 7%nat].

Definition sample_page : ItemsByPage nat :=
  {| pageNumber := 1; items := [Some 7%nat; Some 8%nat] |}.

Definition long_page : ItemsByPage nat :=
  {| pageNumber := 0; items := [Some 1%nat; Some 2%nat; Some 3%nat] |}.

Definition short_page : ItemsByPage nat :=
  {| pageNumber := 1; items := [Some 4%nat] |}.

Definition bare_slot (i : Z) : InternalItem nat :=
  {| index := i; value := None; style := None |}.

(** Objects 1 and 2 hold equal contents, and so do objects 0 and 5. *)
Definition sample_store : store nat := λ r,
  match r with
  | 0 => bare_slot 0
  | 1 => bare_slot 1
  | 2 => bare_slot 1
  | 3 => bare_slot 2
  | 4 => bare_slot 3
  | 5 => bare_slot 0
  | _ => bare_slot 99
  end%nat.

(** The page size changes from [20] to [10] under a window of fifty items,
    then the window grows to sixty. *)
Definition sample_emissions : list emission :=
  [PageSizeEmits 20; LengthEmits 100;
   BufferMetaEmits {| bufferedOffset := 0; bufferedLength := 50 |};
   PageSizeEmits 10;
   BufferMetaEmits {| bufferedOffset := 0; bufferedLength := 60 |}].

(** Windows that overlap and return, under one page size. *)
Definition sample_windows : list emission :=
  [BufferMetaEmits {| bufferedOffset := 20; bufferedLength := 40 |};
   BufferMetaEmits {| bufferedOffset := 0; bufferedLength := 30 |};
   LengthEmits 45;
   BufferMetaEmits {| bufferedOffset := 20; bufferedLength := 40 |}].

(** Page [2] has been emitted, and no window has arrived yet. *)
Definition sample_subscription : subscription :=
  {| latestBufferMeta := None; latestLength := Some 100;
     latestPageSize := Some 10; distinctKeys := {[ 2 ]} |}.

(** An epoch has just begun: the keys are empty. *)
Definition fresh_subscription : subscription :=
  {| latestBufferMeta := None; latestLength := Some 100;
     latestPageSize := Some 10; distinctKeys := ∅ |}.


(** A page provider that serves the slices of a data set held in memory. *)
Definition slicing_provider {A : Type} (data : list (Value A))
    : Z → Z → list (Value A) :=
  λ pageNumber pageSize,
    R.slice (pageNumber * pageSize) (pageNumber * pageSize + pageSize) data.

Definition sample_data : list (Value nat) :=
  [Some 10%nat; Some 11%nat; None; Some 13%nat; Some 14%nat].

(** Three heights above the window under one measurement; the first two lie
    in the same row. *)
Definition sample_scroll : list (Q * ResizeMeasurement) :=
  [(100%Q, sample_measurement); (120%Q, sample_measurement);
   (1100%Q, sample_measurement)].

(** * Part 2: properties *)

(** ** Sample runs *)

Example accumulateAllItems_fills_and_cuts :
  accumulateAllItems [Some 1%nat] (sample_page, 5, 2)
  = [Some 1%nat; None; Some 7%nat; Some 8%nat; None]
  ∧ accumulateAllItems [Some 1%nat; Some 2%nat; Some 3%nat; Some 4%nat]
      (short_page, 3, 2)
    = [Some 1%nat; Some 2%nat; Some 4%nat].
Proof. split; reflexivity. Qed.

(** Object 0 is free and takes the place of the new object 3; object 1 stays,
    because the new object 2 has its contents. *)
Example accumulateBuffer_recycles :
  accumulateBuffer sample_store [0; 1]%nat [2; 3]%nat = [3; 1]%nat.
Proof. reflexivity. Qed.

(** The map of replacements is keyed by identity: object 5 has the contents
    of the replaced object 0 and stays. *)
Example accumulateBuffer_replaces_by_identity :
  accumulateBuffer sample_store [0; 5; 1]%nat [3; 4]%nat = [3; 5; 4]%nat.
Proof. reflexivity. Qed.

Example pageNumber_stream_sample :
  pageNumber_stream sample_emissions
  = Some [[]; []; [0; 1; 2]; [3; 4]; [0; 1; 2; 3; 4; 5]].
Proof. vm_compute. reflexivity. Qed.

(** The quotient [(15674.02 + 10) / 64.81] lies below [242] and is rounded
    to [242]: the window of the doubles starts one row later than the
    window of their values. *)
Example getBufferMeta_rounded_quotient :
  Binary64.getBufferMeta Binary64.sample_viewport Binary64.sample_height
    Binary64.sample_measurement
  = Some {| bufferedOffset := 710; bufferedLength := 66 |}
  ∧ (h ← Binary64.to_Q Binary64.sample_height;
     ihg ← Binary64.to_Q
             (Binary64.itemHeightWithGap Binary64.sample_measurement);
     getBufferMeta 600 h
       {| rowGap := 10; columns := 3;
          itemHeightWithGap := ihg; itemWidthWithGap := 210 |})
    = Some {| bufferedOffset := 707; bufferedLength := 66 |}.
Proof. split; vm_compute; reflexivity. Qed.

(** Page numbers are never negative in the pipeline.  A negative one would
    make [remove] count from the end and [insertAll] append, and the order of
    two folds would show. *)
Example accumulateAllItems_negative_page_numbers :
  let p := {| pageNumber := -1; items := [Some 3%nat] |} in
  let q := {| pageNumber := -2; items := [Some 4%nat] |} in
  accumulateAllItems (accumulateAllItems [] (p, 2, 1)) (q, 2, 1)
  = [Some 3%nat; Some 4%nat]
  ∧ accumulateAllItems (accumulateAllItems [] (q, 2, 1)) (p, 2, 1)
    = [None; Some 3%nat].
Proof. split; reflexivity. Qed.

(** ** The buffer window *)

Section BufferWindow.


Lemma Qeq_bool_zero (x : Q) : (x == 0)%Q → Qeq_bool x 0 = true.
Proof. apply Qeq_eq_bool. Qed.

(** The window is computed for every input: neither division can meet a zero
    divisor. *)
Lemma getBufferMeta_total w h m : is_Some (getBufferMeta w h m).
Proof.
  unfold getBufferMeta, Num.and_then, Num.div.
  destruct (Qeq_bool (itemHeightWithGap m) 0); simpl; eauto.
Qed.

Lemma div_inject_Z (a b : Z) :
  b ≠ 0 → Num.div (inject_Z a) (inject_Z b) = Some (inject_Z a / inject_Z b)%Q.
Proof.
  intros Hb. unfold Num.div.
  destruct (Qeq_bool (inject_Z b) 0) eqn:E; [|done].
  apply Qeq_bool_eq in E. unfold Qeq in E. simpl in E. lia.
Qed.

End BufferWindow.

Section Binary64Facts.

Lemma and_then_positive (g : PrimFloat.float) (e : option Z) :
  Binary64.is_positive g = true → Binary64.and_then g e = e.
Proof.
  unfold Binary64.is_positive, Binary64.and_then.
  by destruct (FloatOps.Prim2SF g) as [[]|[]| |[] ? ?].
Qed.

Lemma integer_safe (n : Z) : Binary64.safe n → Binary64.integer n = Some n.
Proof. intros Hn. unfold Binary64.integer. by rewrite decide_True. Qed.

(** The window of the doubles, from the two rounded quotients. *)
Lemma getBufferMeta_binary64 w h (m : Binary64.ResizeMeasurement)
    (rowsBelow rowsBeforeView : Z) :
  Binary64.is_positive (Binary64.itemHeightWithGap m) = true →
  Binary64.ceil ((w + Binary64.rowGap m) / Binary64.itemHeightWithGap m)%float
  = Some rowsBelow →
  Binary64.floor ((h + Binary64.rowGap m) / Binary64.itemHeightWithGap m)%float
  = Some rowsBeforeView →
  Binary64.getBufferMeta w h m
  = (cols ← Binary64.integer (Binary64.columns m);
     rowsInView ← Binary64.integer (rowsBelow + 1);
     length ← Binary64.integer (rowsInView * cols);
     offset ← Binary64.integer (rowsBeforeView * cols);
     difference ← Binary64.integer (offset - length `div` 2);
     bufferedLength ← Binary64.integer (length * 2);
     Some {| bufferedOffset := Z.max difference 0;
             bufferedLength := bufferedLength |}).
Proof.
  intros Hpos Hceil Hfloor. unfold Binary64.getBufferMeta.
  rewrite !and_then_positive by done. rewrite Hceil, Hfloor.
  cbn [mbind option_bind].
  destruct (Binary64.integer (Binary64.columns m)); [|done].
  cbn [mbind option_bind].
  destruct (Binary64.integer (rowsBelow + 1)); [|done].
  cbn [mbind option_bind].
  by destruct (Binary64.integer _).
Qed.

End Binary64Facts.

(** C1. For a height above the window that is not negative and a positive
    item height, the window has length [2 * rowsInView * columns] with
    [rowsInView = ceil ((windowInnerHeight + rowGap) / itemHeightWithGap) + 1]
    and offset
    [max (floor ((heightAboveWindow + rowGap) / itemHeightWithGap) * columns
          - floor (rowsInView * columns / 2)) 0], which is not negative.  The
    sums and the quotients are those of doubles, [ceil] and [floor] are
    taken of the rounded quotients, and the integers are exact in a
    double. *)
Theorem getBufferMeta_window w h (m : Binary64.ResizeMeasurement)
    (rowsBelow rowsBeforeView : Z) :
  Binary64.is_nonnegative h = true →
  Binary64.is_positive (Binary64.itemHeightWithGap m) = true →
  Binary64.ceil ((w + Binary64.rowGap m) / Binary64.itemHeightWithGap m)%float
  = Some rowsBelow →
  Binary64.floor ((h + Binary64.rowGap m) / Binary64.itemHeightWithGap m)%float
  = Some rowsBeforeView →
  let columns := Binary64.columns m in
  let rowsInView := rowsBelow + 1 in
  Binary64.safe columns → Binary64.safe rowsInView →
  Binary64.safe (rowsInView * columns) →
  Binary64.safe (rowsBeforeView * columns) →
  Binary64.safe (rowsBeforeView * columns - (rowsInView * columns) `div` 2) →
  Binary64.safe (rowsInView * columns * 2) →
  ∃ bm, Binary64.getBufferMeta w h m = Some bm
    ∧ bufferedLength bm = 2 * rowsInView * columns
    ∧ bufferedOffset bm
      = Z.max (rowsBeforeView * columns - (rowsInView * columns) `div` 2) 0
    ∧ 0 ≤ bufferedOffset bm.
Proof.
  intros _ Hpos Hceil Hfloor columns rowsInView Hc Hr Hl Ho Hd Hb.
  rewrite (getBufferMeta_binary64 w h m rowsBelow rowsBeforeView) by done.
  fold columns rowsInView.
  rewrite (integer_safe columns) by done. cbn [mbind option_bind].
  rewrite (integer_safe rowsInView) by done. cbn [mbind option_bind].
  rewrite (integer_safe (rowsInView * columns)) by done.
  cbn [mbind option_bind].
  rewrite (integer_safe (rowsBeforeView * columns)) by done.
  cbn [mbind option_bind].
  rewrite (integer_safe _ Hd). cbn [mbind option_bind].
  rewrite (integer_safe _ Hb). cbn [mbind option_bind].
  eexists. split; [reflexivity|].
  cbn [bufferedLength bufferedOffset]. repeat split; lia.
Qed.

Lemma getBufferMeta_window_witness :
  ∃ bm,
    Binary64.getBufferMeta Binary64.sample_viewport Binary64.sample_height
      Binary64.sample_measurement
    = Some bm
    ∧ bufferedLength bm = 2 * (10 + 1) * 3
    ∧ bufferedOffset bm = Z.max (242 * 3 - ((10 + 1) * 3) `div` 2) 0
    ∧ 0 ≤ bufferedOffset bm.
Proof.
  apply (getBufferMeta_window Binary64.sample_viewport Binary64.sample_height
           Binary64.sample_measurement 10 242);
    first [ by vm_compute | unfold Binary64.safe; simpl; lia ].
Defined.

(** C9. With an item height of zero both guarded quotients are [0]: the
    window is computed, and it is the empty window at offset [0]. *)
Theorem getBufferMeta_zero_height (w h : Q) (m : ResizeMeasurement) :
  (itemHeightWithGap m == 0)%Q →
  getBufferMeta w h m = Some {| bufferedOffset := 0; bufferedLength := 0 |}.
Proof.
  intros Hz. unfold getBufferMeta, Num.and_then.
  rewrite (Qeq_bool_zero _ Hz). reflexivity.
Qed.

Lemma getBufferMeta_zero_height_witness :
  getBufferMeta 600 (-7) flat_measurement
  = Some {| bufferedOffset := 0; bufferedLength := 0 |}.
Proof. apply getBufferMeta_zero_height. reflexivity. Defined.

(** ** The page resolver *)

Lemma lookup_range (start count : Z) (i : nat) :
  Z.of_nat i < count → range start count !! i = Some (start + Z.of_nat i).
Proof.
  intros Hi. unfold range. rewrite decide_False by lia.
  by apply lookup_seqZ_lt.
Qed.

Lemma length_range (start count : Z) :
  length (range start count) = Z.to_nat count.
Proof.
  unfold range. case_decide; [simpl; lia|]. apply length_seqZ.
Qed.

Lemma elem_of_range (start count n : Z) :
  n ∈ range start count ↔ start ≤ n < start + count.
Proof.
  unfold range. case_decide.
  - rewrite elem_of_nil. lia.
  - apply elem_of_seqZ.
Qed.

(** C2. For a total length that is not negative and a positive page size the
    emitted page numbers are the integers from
    [startPage = floor (bufferedOffset / pageSize)] up to, not including,
    [endPage = ceil (min (bufferedOffset + bufferedLength) totalLength / pageSize)],
    each once and in increasing order; the window at offset 25 of length 50
    with pages of 20 and at least 75 items yields the pages 1, 2, 3. *)
Theorem visible_page_numbers (bm : BufferMeta) (totalLength pageSize : Z) :
  0 ≤ totalLength → 0 < pageSize →
  let startPage :=
    Qfloor (inject_Z (bufferedOffset bm) / inject_Z pageSize) in
  let endPage :=
    Qceiling (inject_Z (Z.min (bufferedOffset bm + bufferedLength bm) totalLength)
              / inject_Z pageSize) in
  ∃ pages,
    getObservableOfVisiblePageNumbers bm totalLength pageSize = Some pages
    ∧ length pages = Z.to_nat (endPage - startPage)
    ∧ (∀ i : nat, Z.of_nat i < endPage - startPage →
         pages !! i = Some (startPage + Z.of_nat i))
    ∧ (∀ n, n ∈ pages ↔ startPage ≤ n < endPage)
    ∧ (bufferedOffset bm = 25 → bufferedLength bm = 50 → pageSize = 20 →
       75 ≤ totalLength → pages = [1; 2; 3]).
Proof.
  intros HL Hps startPage endPage.
  assert (bufferedOffset bm = 25 → bufferedLength bm = 50 → pageSize = 20 →
          75 ≤ totalLength → startPage = 1 ∧ endPage = 4) as Hex.
  { intros Ho Hl -> H75. unfold endPage, startPage. rewrite Ho, Hl.
    by replace (Z.min (25 + 50) totalLength) with 75 by lia. }
  unfold getObservableOfVisiblePageNumbers.
  rewrite !div_inject_Z by lia.
  cbn [fmap option_fmap option_map mbind option_bind].
  fold startPage endPage. clearbody startPage endPage.
  eexists. split; [reflexivity|].
  split; [apply length_range|].
  split; [intros i Hi; by apply lookup_range|].
  split.
  - intros n. rewrite elem_of_range. lia.
  - intros Ho Hl Hp H75. by destruct (Hex Ho Hl Hp H75) as [-> ->].
Qed.

Lemma visible_page_numbers_witness :
  ∃ pages,
    getObservableOfVisiblePageNumbers sample_window 1000 20 = Some pages
    ∧ length pages = 3%nat
    ∧ (∀ i : nat, Z.of_nat i < 3 → pages !! i = Some (1 + Z.of_nat i))
    ∧ (∀ n, n ∈ pages ↔ 1 ≤ n < 4)
    ∧ pages = [1; 2; 3].
Proof.
  destruct (visible_page_numbers sample_window 1000 20)
    as (pages & E & Hlen & Hlook & Hmem & Hex); [lia | lia |].
  exists pages. split; [exact E|]. split; [exact Hlen|].
  split; [exact Hlook|]. split; [exact Hmem|].
  apply Hex; [reflexivity | reflexivity | reflexivity | lia].
Defined.

(** ** Arrays at indices that are not negative *)

Section ArrayFacts.
Context {X : Type}.
Implicit Types l elts : list X.

Lemma slice_nonneg (a b : Z) l :
  0 ≤ a → a ≤ b →
  R.slice a b l = take (Z.to_nat (b - a)) (drop (Z.to_nat a) l).
Proof.
  intros Ha Hab. unfold R.slice, Js.relative.
  destruct (decide (a < 0)) as [?|_]; [lia|].
  destruct (decide (b < 0)) as [?|_]; [lia|].
  destruct (decide (a ≤ Z.of_nat (length l))) as [Hin|Hout].
  - replace (a `min` _) with a by lia.
    destruct (decide (b ≤ Z.of_nat (length l))) as [Hb|Hb].
    + by replace (b `min` _) with b by lia.
    + rewrite !take_ge; [done | |]; rewrite length_drop; lia.
  - rewrite !drop_ge; [by rewrite !take_nil | lia | lia].
Qed.

Lemma slice_prefix (n : Z) l : 0 ≤ n → R.slice 0 n l = take (Z.to_nat n) l.
Proof.
  intros Hn. rewrite slice_nonneg by lia. rewrite drop_0. f_equal. lia.
Qed.

Lemma slice_suffix (k : Z) l :
  0 ≤ k → k ≤ Z.of_nat (length l) →
  R.slice k (Z.of_nat (length l)) l = drop (Z.to_nat k) l.
Proof.
  intros Hk Hle. rewrite slice_nonneg by lia.
  apply take_ge. rewrite length_drop. lia.
Qed.

Lemma remove_nonneg (start count : Z) l :
  0 ≤ start → 0 ≤ count →
  R.remove start count l
  = take (Z.to_nat start) l ++ drop (Z.to_nat start + Z.to_nat count) l.
Proof.
  intros Hs Hc. unfold R.remove, Js.relative.
  destruct (decide (start < 0)) as [?|_]; [lia|].
  destruct (decide (start ≤ Z.of_nat (length l))) as [Hle|Hgt].
  - replace (start `min` Z.of_nat (length l)) with start by lia.
    f_equal.
    destruct (decide (count ≤ Z.of_nat (length l) - start)) as [Hc'|Hc'].
    + f_equal. lia.
    + rewrite !drop_ge; [done | lia | lia].
  - rewrite !take_ge, !drop_ge; [done | lia | lia | lia | lia].
Qed.

Lemma insertAll_nonneg (idx : Z) elts l :
  0 ≤ idx →
  R.insertAll idx elts l
  = take (Z.to_nat idx) l ++ elts ++ drop (Z.to_nat idx) l.
Proof.
  intros Hi. unfold R.insertAll.
  destruct (decide (idx < Z.of_nat (length l) ∧ 0 ≤ idx)) as [[Hlt _]|Hge].
  - by rewrite slice_prefix, slice_suffix by lia.
  - rewrite slice_prefix, slice_suffix by lia.
    rewrite Nat2Z.id, !take_ge, !drop_ge; [done | lia | lia | lia | lia].
Qed.

(** Removing [count] elements at [start] and inserting [elts] there. *)
Lemma insertAll_remove (start count : Z) elts l :
  0 ≤ start → 0 ≤ count →
  R.insertAll start elts (R.remove start count l)
  = take (Z.to_nat start) l ++ elts
      ++ drop (Z.to_nat start + Z.to_nat count) l.
Proof.
  intros Hs Hc. rewrite insertAll_nonneg, remove_nonneg by done.
  destruct (decide (Z.to_nat start ≤ length l)%nat) as [Hle|Hgt].
  - rewrite take_app_length', drop_app_length'; [done| |];
      rewrite length_take; lia.
  - rewrite (drop_ge l (_ + _)) by lia. rewrite app_nil_r.
    rewrite (take_ge l) by lia.
    rewrite take_ge, drop_ge; [done | lia | lia].
Qed.

(** Whatever the indices, removal loses at most [count] elements and
    insertion adds all of [elts]. *)
Lemma length_remove (start count : Z) l :
  0 ≤ count →
  (length l ≤ length (R.remove start count l) + Z.to_nat count)%nat.
Proof.
  intros Hc. unfold R.remove, Js.relative.
  rewrite length_app, length_take, length_drop.
  destruct (decide (start < 0)); lia.
Qed.

Lemma length_insertAll (idx : Z) elts l :
  length (R.insertAll idx elts l) = (length l + length elts)%nat.
Proof.
  unfold R.insertAll.
  set (idx' := if decide (_ ∧ _) then idx else _).
  assert (0 ≤ idx' ≤ Z.of_nat (length l)) as Hidx.
  { unfold idx'. destruct (decide _); lia. }
  clearbody idx'. rewrite slice_prefix, slice_suffix by lia.
  rewrite !length_app, !length_take, !length_drop. lia.
Qed.

End ArrayFacts.

(** ** The item accumulator *)

Section AccumulatorFacts.
Context {A : Type}.
Implicit Types (allItems : list (Value A)) (p q page : ItemsByPage A).
Implicit Types (totalLength pageSize : Z).

Lemma accumulateAllItems_unfold allItems page totalLength pageSize :
  accumulateAllItems allItems (page, totalLength, pageSize)
  = R.slice 0 totalLength
      (R.insertAll (pageNumber page * pageSize) (normalized page pageSize)
         (R.remove (pageNumber page * pageSize) pageSize
            (padded allItems totalLength))).
Proof. reflexivity. Qed.

Lemma length_padded allItems totalLength :
  Z.of_nat (length (padded allItems totalLength))
  = Z.max (Z.of_nat (length allItems)) totalLength.
Proof.
  unfold padded, Js.fill. rewrite length_app, length_replicate. lia.
Qed.

(** Below [totalLength] the padded collection holds the prior value, or
    [undefined] past the end of the prior collection. *)
Lemma lookup_padded allItems totalLength (i : nat) :
  Z.of_nat i < totalLength →
  padded allItems totalLength !! i = Some (default None (allItems !! i)).
Proof.
  intros Hi. unfold padded, Js.fill.
  destruct (decide (i < length allItems)%nat) as [Hin|Hout].
  - rewrite lookup_app_l by done.
    by destruct (lookup_lt_is_Some_2 _ _ Hin) as [v ->].
  - rewrite lookup_app_r by lia.
    rewrite (lookup_ge_None_2 allItems) by lia.
    rewrite lookup_replicate_2; [done|lia].
Qed.

Lemma padded_full allItems totalLength :
  Z.of_nat (length allItems) = totalLength →
  padded allItems totalLength = allItems.
Proof.
  intros Hlen. unfold padded, Js.fill.
  replace (Z.to_nat _) with 0%nat by lia. apply app_nil_r.
Qed.

Lemma length_normalized page pageSize :
  0 ≤ pageSize → length (normalized page pageSize) = Z.to_nat pageSize.
Proof.
  intros Hps. unfold normalized, Js.fill.
  rewrite slice_prefix by done.
  rewrite length_app, length_take, length_replicate. lia.
Qed.

Lemma lookup_normalized page pageSize (k : nat) :
  (k < Z.to_nat pageSize)%nat →
  normalized page pageSize !! k = Some (default None (items page !! k)).
Proof.
  intros Hk. unfold normalized, Js.fill.
  rewrite slice_prefix by lia.
  destruct (decide (k < length (items page))%nat) as [Hin|Hout].
  - rewrite lookup_app_l by (rewrite length_take; lia).
    rewrite lookup_take_lt by lia.
    destruct (lookup_lt_is_Some_2 _ _ Hin) as [v ->]. done.
  - rewrite lookup_app_r by (rewrite length_take; lia).
    rewrite (lookup_ge_None_2 (items page)) by lia.
    rewrite lookup_replicate_2; [done|]. rewrite length_take. lia.
Qed.

Lemma length_accumulateAllItems allItems page totalLength pageSize :
  0 ≤ totalLength → 0 ≤ pageSize →
  Z.of_nat (length (accumulateAllItems allItems (page, totalLength, pageSize)))
  = totalLength.
Proof.
  intros HL Hps. rewrite accumulateAllItems_unfold.
  rewrite slice_prefix by done. rewrite length_take, length_insertAll.
  rewrite length_normalized by done.
  pose proof (length_remove (pageNumber page * pageSize) pageSize
                (padded allItems totalLength) Hps) as Hrem.
  pose proof (length_padded allItems totalLength) as Hpad.
  lia.
Qed.

(** With a page number that is not negative the fold overwrites the page's
    slice of the padded collection and cuts the result at [totalLength]. *)
Lemma accumulateAllItems_splice allItems page totalLength pageSize :
  0 ≤ totalLength → 0 ≤ pageSize → 0 ≤ pageNumber page →
  accumulateAllItems allItems (page, totalLength, pageSize)
  = take (Z.to_nat totalLength)
      (take (Z.to_nat (pageNumber page * pageSize)) (padded allItems totalLength)
         ++ normalized page pageSize
         ++ drop (Z.to_nat (pageNumber page * pageSize) + Z.to_nat pageSize)
              (padded allItems totalLength)).
Proof.
  intros HL Hps Hpn. rewrite accumulateAllItems_unfold.
  rewrite slice_prefix by done. by rewrite insertAll_remove by lia.
Qed.

Lemma lookup_accumulateAllItems allItems page totalLength pageSize (i : nat) :
  0 ≤ totalLength → 0 ≤ pageSize → 0 ≤ pageNumber page →
  Z.of_nat i < totalLength →
  accumulateAllItems allItems (page, totalLength, pageSize) !! i
  = if decide (pageNumber page * pageSize ≤ Z.of_nat i
               < pageNumber page * pageSize + pageSize)
    then Some (default None
                 (items page !! (i - Z.to_nat (pageNumber page * pageSize))%nat))
    else padded allItems totalLength !! i.
Proof.
  intros HL Hps Hpn Hi. rewrite accumulateAllItems_splice by done.
  rewrite lookup_take_lt by lia.
  pose proof (length_padded allItems totalLength) as Hpad.
  set (s := Z.to_nat (pageNumber page * pageSize)).
  assert (Z.of_nat s = pageNumber page * pageSize) as Hs by lia.
  destruct (decide (i < s)%nat) as [Hlt|Hge].
  - rewrite decide_False by lia.
    rewrite lookup_app_l by (rewrite length_take; lia).
    by rewrite lookup_take_lt.
  - rewrite lookup_app_r by (rewrite length_take; lia).
    rewrite length_take. replace (s `min` _)%nat with s by lia.
    destruct (decide (i - s < Z.to_nat pageSize)%nat) as [Hin|Hout].
    + rewrite decide_True by lia.
      rewrite lookup_app_l by (rewrite length_normalized; lia).
      by apply lookup_normalized.
    + rewrite decide_False by lia.
      rewrite lookup_app_r by (rewrite length_normalized; lia).
      rewrite length_normalized by done. rewrite lookup_drop. f_equal. lia.
Qed.

(** Two pages with different numbers occupy disjoint slices. *)
Lemma page_slices_disjoint (m n pageSize i : Z) :
  m ≠ n →
  m * pageSize ≤ i < m * pageSize + pageSize →
  n * pageSize ≤ i < n * pageSize + pageSize → False.
Proof. intros Hne Hm Hn. apply Hne. nia. Qed.

Lemma accumulateAllItems_twice allItems p q totalLength pageSize (i : nat) :
  0 ≤ totalLength → 0 ≤ pageSize → 0 ≤ pageNumber p → 0 ≤ pageNumber q →
  Z.of_nat i < totalLength →
  accumulateAllItems (accumulateAllItems allItems (p, totalLength, pageSize))
    (q, totalLength, pageSize) !! i
  = if decide (pageNumber q * pageSize ≤ Z.of_nat i
               < pageNumber q * pageSize + pageSize)
    then Some (default None
                 (items q !! (i - Z.to_nat (pageNumber q * pageSize))%nat))
    else if decide (pageNumber p * pageSize ≤ Z.of_nat i
                    < pageNumber p * pageSize + pageSize)
    then Some (default None
                 (items p !! (i - Z.to_nat (pageNumber p * pageSize))%nat))
    else padded allItems totalLength !! i.
Proof.
  intros HL Hps Hp Hq Hi.
  rewrite lookup_accumulateAllItems by done.
  rewrite padded_full by (by apply length_accumulateAllItems).
  by rewrite (lookup_accumulateAllItems allItems p) by done.
Qed.

End AccumulatorFacts.

(** C4. A page that fills its slice exactly, inside the collection: the
    result carries the page's items on [pageNumber * pageSize,
    pageNumber * pageSize + pageSize) and, at every other index below
    [totalLength], the value of the prior collection padded with [undefined]
    up to [totalLength]. *)
Theorem accumulateAllItems_frame {A} (allItems : list (Value A))
    (page : ItemsByPage A) (totalLength pageSize : Z) :
  0 ≤ totalLength → 0 < pageSize → 0 ≤ pageNumber page →
  Z.of_nat (length (items page)) = pageSize →
  (pageNumber page + 1) * pageSize ≤ totalLength →
  let start := pageNumber page * pageSize in
  let result := accumulateAllItems allItems (page, totalLength, pageSize) in
  R.slice start (start + pageSize) result = items page
  ∧ ∀ i : nat,
      Z.of_nat i < totalLength → ¬ (start ≤ Z.of_nat i < start + pageSize) →
      result !! i
      = (allItems
           ++ replicate (Z.to_nat (totalLength - Z.of_nat (length allItems))) None)
        !! i.
Proof.
  intros HL Hps Hpn Hlen Hin start result.
  assert (Z.of_nat (length result) = totalLength) as Hres
    by (apply length_accumulateAllItems; lia).
  split.
  - rewrite slice_nonneg by lia.
    replace (start + pageSize - start) with pageSize by lia.
    apply list_eq. intros k.
    destruct (decide (k < Z.to_nat pageSize)%nat) as [Hk|Hk].
    + rewrite lookup_take_lt, lookup_drop by done. unfold result.
      rewrite lookup_accumulateAllItems by lia.
      fold start. rewrite decide_True by lia.
      replace (Z.to_nat start + k - Z.to_nat start)%nat with k by lia.
      destruct (lookup_lt_is_Some_2 (items page) k) as [v ->]; [lia|done].
    + rewrite lookup_take_ge by lia. symmetry. apply lookup_ge_None_2. lia.
  - intros i Hi Hout. unfold result.
    rewrite lookup_accumulateAllItems by lia.
    fold start. rewrite decide_False by done.
    unfold padded, Js.fill. do 3 f_equal. lia.
Qed.

Lemma accumulateAllItems_frame_witness :
  R.slice 2 4 (accumulateAllItems [Some 1%nat] (sample_page, 5, 2))
  = [Some 7%nat; Some 8%nat]
  ∧ ∀ i : nat,
      Z.of_nat i < 5 → ¬ (2 ≤ Z.of_nat i < 4) →
      accumulateAllItems [Some 1%nat] (sample_page, 5, 2) !! i
      = [Some 1%nat; None; None; None; None] !! i.
Proof.
  apply (accumulateAllItems_frame [Some 1%nat] sample_page 5 2); simpl; lia.
Defined.

(** C5. For a fixed total length and page size, folding two pages with
    different page numbers gives the same collection in either order. *)
Theorem accumulateAllItems_commute {A} (allItems : list (Value A))
    (p q : ItemsByPage A) (totalLength pageSize : Z) :
  0 ≤ totalLength → 0 < pageSize →
  0 ≤ pageNumber p → 0 ≤ pageNumber q → pageNumber p ≠ pageNumber q →
  accumulateAllItems (accumulateAllItems allItems (p, totalLength, pageSize))
    (q, totalLength, pageSize)
  = accumulateAllItems (accumulateAllItems allItems (q, totalLength, pageSize))
      (p, totalLength, pageSize).
Proof.
  intros HL Hps Hp Hq Hne. apply list_eq. intros i.
  destruct (decide (Z.of_nat i < totalLength)) as [Hi|Hi].
  - rewrite !accumulateAllItems_twice by lia.
    repeat case_decide; try done.
    exfalso. eapply (page_slices_disjoint (pageNumber p) (pageNumber q)); eauto.
  - assert (∀ (l : list (Value A)) pg,
              accumulateAllItems l (pg, totalLength, pageSize) !! i = None)
      as Hnone.
    { intros l pg. apply lookup_ge_None_2.
      pose proof (length_accumulateAllItems l pg totalLength pageSize). lia. }
    by rewrite !Hnone.
Qed.

Lemma accumulateAllItems_commute_witness :
  accumulateAllItems (accumulateAllItems [Some 9%nat] (long_page, 3, 2))
    (short_page, 3, 2)
  = accumulateAllItems (accumulateAllItems [Some 9%nat] (short_page, 3, 2))
      (long_page, 3, 2).
Proof.
  apply (accumulateAllItems_commute [Some 9%nat] long_page short_page 3 2);
    simpl; lia.
Defined.

(** C6. Whatever the prior collection and the page, for a total length and a
    page size that are not negative the result has exactly [totalLength]
    slots.  It is the prior collection filled with [undefined] or cut: it
    has no slot at [totalLength] or beyond, and outside the slice of the
    page (at a page number that is not negative) every slot below
    [totalLength] holds the prior value, or [undefined] past the end of the
    prior collection. *)
Theorem accumulateAllItems_padded_to_length {A} (allItems : list (Value A))
    (page : ItemsByPage A) (totalLength pageSize : Z) :
  0 ≤ totalLength → 0 ≤ pageSize →
  let start := pageNumber page * pageSize in
  let result := accumulateAllItems allItems (page, totalLength, pageSize) in
  Z.of_nat (length result) = totalLength
  ∧ (∀ i : nat, totalLength ≤ Z.of_nat i → result !! i = None)
  ∧ (0 ≤ pageNumber page →
     ∀ i : nat,
       Z.of_nat i < totalLength → ¬ (start ≤ Z.of_nat i < start + pageSize) →
       result !! i = Some (default None (allItems !! i))).
Proof.
  intros HL Hps start result.
  assert (Z.of_nat (length result) = totalLength) as Hres
    by (by apply length_accumulateAllItems).
  split; [exact Hres|]. split.
  - intros i Hi. apply lookup_ge_None_2. lia.
  - intros Hpn i Hi Hout. unfold result.
    rewrite lookup_accumulateAllItems by done.
    fold start. rewrite decide_False by done. by apply lookup_padded.
Qed.

Lemma accumulateAllItems_padded_to_length_witness :
  (Z.of_nat (length (accumulateAllItems
                       [Some 1%nat; Some 2%nat; Some 3%nat; Some 4%nat]
                       (sample_page, 3, 2)))
   = 3
   ∧ accumulateAllItems [Some 1%nat; Some 2%nat; Some 3%nat; Some 4%nat]
       (sample_page, 3, 2) !! 3%nat
     = None
   ∧ accumulateAllItems [Some 1%nat; Some 2%nat; Some 3%nat; Some 4%nat]
       (sample_page, 3, 2) !! 1%nat
     = Some (Some 2%nat))
  ∧ (Z.of_nat (length (accumulateAllItems [Some 1%nat] (sample_page, 6, 2)))
     = 6
     ∧ accumulateAllItems [Some 1%nat] (sample_page, 6, 2) !! 5%nat
       = Some None).
Proof.
  split.
  - destruct (accumulateAllItems_padded_to_length
                [Some 1%nat; Some 2%nat; Some 3%nat; Some 4%nat]
                sample_page 3 2) as (Hlen & Hcut & Hkeep); [lia | lia |].
    split; [exact Hlen|]. split.
    + apply Hcut. lia.
    + apply (Hkeep ltac:(simpl; lia) 1%nat); simpl; lia.
  - destruct (accumulateAllItems_padded_to_length
                [Some 1%nat] sample_page 6 2) as (Hlen & _ & Hkeep);
      [lia | lia |].
    split; [exact Hlen|].
    apply (Hkeep ltac:(simpl; lia) 5%nat); simpl; lia.
Defined.

(** ** The visible-item projector *)

Section ProjectorFacts.
Context {A : Type} (number_to_string : Q → string).
Implicit Types (allItems : list (Value A)).

Lemma mapM_imap_Some {X Y} (f : nat → X → option Y) (g : nat → X → Y)
    (l : list X) :
  (∀ k x, l !! k = Some x → f k x = Some (g k x)) →
  mapM id (imap f l) = Some (imap g l).
Proof.
  revert f g. induction l as [|x l IH]; intros f g Hfg; [done|].
  rewrite !imap_cons. cbn [mapM id]. rewrite (Hfg 0%nat x) by done. simpl.
  rewrite (IH (f ∘ S) (g ∘ S)); [done|].
  intros k y Hk. apply (Hfg (S k)). done.
Qed.

(** With columns to divide by, the callback builds the slot of the
    specification. *)
Lemma slot_columns_pos bm m allItems (k : nat) (v : Value A) :
  0 ≤ bufferedOffset bm → 0 < columns m →
  allItems !! Z.to_nat (bufferedOffset bm + Z.of_nat k) = Some v →
  slot number_to_string bm m k v
  = Some (slot_at number_to_string m allItems (bufferedOffset bm + Z.of_nat k)).
Proof.
  intros Hoff Hcol Hv. unfold slot, slot_at, Num.rem.
  rewrite decide_False by lia. rewrite div_inject_Z by lia.
  cbn [fmap option_fmap option_map mbind option_bind].
  rewrite Hv, <- Zdiv_Qdiv, Z.rem_mod_nonneg by lia. done.
Qed.

End ProjectorFacts.

(** C3, as the code has it.  For a window whose offset and length are not
    negative and a positive number of columns, there is one slot for every
    index from [bufferedOffset] up to, not including, the smaller of
    [bufferedOffset + bufferedLength] and the length of the collection, in
    increasing order; the slot of index [i] carries the value of the
    collection at [i] and the transform
    [translate ((i mod columns) * itemWidthWithGap,
                floor (i / columns) * itemHeightWithGap)]. *)
Theorem getVisibleItems_slots {A} (number_to_string : Q → string)
    (bm : BufferMeta) (m : ResizeMeasurement) (allItems : list (Value A)) :
  0 ≤ bufferedOffset bm → 0 ≤ bufferedLength bm → 0 < columns m →
  let last :=
    Z.min (bufferedOffset bm + bufferedLength bm) (Z.of_nat (length allItems)) in
  ∃ slots,
    getVisibleItems number_to_string bm m allItems = Some slots
    ∧ length slots = Z.to_nat (last - bufferedOffset bm)
    ∧ ∀ k : nat,
        bufferedOffset bm + Z.of_nat k < last →
        slots !! k
        = Some (slot_at number_to_string m allItems
                  (bufferedOffset bm + Z.of_nat k)).
Proof.
  intros Hoff Hlen Hcol last. unfold getVisibleItems.
  rewrite slice_nonneg by lia.
  set (window := take _ _).
  assert (∀ (k : nat) v, window !! k = Some v →
            allItems !! Z.to_nat (bufferedOffset bm + Z.of_nat k) = Some v)
    as Hwin.
  { intros k v Hk. unfold window in Hk.
    apply lookup_take_Some in Hk as [Hk _]. rewrite lookup_drop in Hk.
    rewrite <- Hk. f_equal. lia. }
  erewrite mapM_imap_Some; last first.
  { intros k v Hk. apply slot_columns_pos; eauto. }
  eexists. split; [reflexivity|]. split.
  - rewrite length_imap. unfold window. rewrite length_take, length_drop. lia.
  - intros k Hk. rewrite list_lookup_imap.
    destruct (lookup_lt_is_Some_2 window k) as [v Hv].
    { unfold window. rewrite length_take, length_drop. lia. }
    by rewrite Hv.
Qed.

Lemma getVisibleItems_slots_witness :
  ∃ slots,
    getVisibleItems sample_number_to_string
      {| bufferedOffset := 1; bufferedLength := 4 |} sample_measurement
      sample_collection = Some slots
    ∧ length slots = 2%nat
    ∧ ∀ k : nat, 1 + Z.of_nat k < 3 →
        slots !! k
        = Some (slot_at sample_number_to_string sample_measurement
                  sample_collection (1 + Z.of_nat k)).
Proof.
  apply (getVisibleItems_slots sample_number_to_string
           {| bufferedOffset := 1; bufferedLength := 4 |} sample_measurement
           sample_collection); simpl; lia.
Defined.

(** C3 as stated fails: a window that reaches past the end of the collection
    gets no slot for the indices at or beyond the collection's length.  Here
    the window is [0, 2) and the collection has one item: there is one slot,
    not two. *)
Lemma getVisibleItems_not_beyond_collection :
  getVisibleItems sample_number_to_string
    {| bufferedOffset := 0; bufferedLength := 2 |} sample_measurement
    [Some 5%nat]
  = Some [slot_at sample_number_to_string sample_measurement [Some 5%nat] 0]
  ∧ ¬ ∃ slots,
        getVisibleItems sample_number_to_string
          {| bufferedOffset := 0; bufferedLength := 2 |} sample_measurement
          [Some 5%nat] = Some slots
        ∧ index <$> slots = seqZ 0 2.
Proof.
  split; [reflexivity|].
  intros (slots & Hslots & Hindex).
  vm_compute in Hslots. injection Hslots as <-. discriminate Hindex.
Qed.

(** ** The buffer recycler *)

Section RecyclerFacts.
Context {O : Type} `{EqDecision O}.
Implicit Types (s : ref → O) (xs first : list ref).

Lemma includes_true s x xs : R.includes s x xs = true ↔ s x ∈ s <$> xs.
Proof.
  unfold R.includes, R.equals. rewrite existsb_exists, list_elem_of_fmap.
  split.
  - intros (y & Hy & Heq). apply bool_decide_eq_true in Heq.
    exists y. by rewrite <- list_elem_of_In in Hy.
  - intros (y & Heq & Hy). exists y. rewrite <- list_elem_of_In.
    split; [done|]. by apply bool_decide_eq_true.
Qed.

Lemma includes_false s x xs : R.includes s x xs = false ↔ s x ∉ s <$> xs.
Proof.
  rewrite <- includes_true. destruct (R.includes s x xs); naive_solver.
Qed.

(** Nothing is put out when every element equals one that is filtered out. *)
Lemma difference_loop_covered s toFilterOut first :
  (∀ x, x ∈ first → s x ∈ s <$> toFilterOut) →
  R.difference_loop s toFilterOut first = [].
Proof.
  induction first as [|x rest IH]; intros Hcov; [done|]. simpl.
  assert (R.includes s x toFilterOut = true) as ->.
  { apply includes_true, Hcov. left. }
  apply IH. intros y Hy. apply Hcov. by right.
Qed.

(** Everything is put out when the contents are pairwise different and none
    is filtered out at the start. *)
Lemma difference_loop_fresh s toFilterOut first :
  NoDup (s <$> first) →
  (∀ x, x ∈ first → s x ∉ s <$> toFilterOut) →
  R.difference_loop s toFilterOut first = first.
Proof.
  revert toFilterOut.
  induction first as [|x rest IH]; intros toFilterOut Hnd Hfresh; [done|].
  simpl. rewrite fmap_cons in Hnd. apply NoDup_cons in Hnd as [Hx Hnd].
  assert (R.includes s x toFilterOut = false) as ->.
  { apply includes_false, Hfresh. left. }
  f_equal. apply IH; [done|].
  intros y Hy. rewrite fmap_app, elem_of_app. intros [Hin|Hin].
  - by apply (Hfresh y); [right|].
  - simpl in Hin. apply list_elem_of_singleton in Hin.
    apply Hx. rewrite <- Hin. by apply list_elem_of_fmap_2.
Qed.

Lemma without_nil s l : R.without s [] l = l.
Proof.
  unfold R.without. induction l as [|x rest IH]; [done|].
  rewrite filter_cons_True by done. by rewrite IH.
Qed.

End RecyclerFacts.

(** C7. When the new projection equals the previous buffer slot by slot, in
    the same order, the next buffer is the previous buffer itself: the same
    slot objects in the same places, nothing replaced, deleted or appended. *)
Theorem accumulateBuffer_same_projection {A} `{EqDecision A}
    (s : store A) (buffer visibleItems : list ref) :
  s <$> visibleItems = s <$> buffer →
  accumulateBuffer s buffer visibleItems = buffer.
Proof.
  intros Hsame. unfold accumulateBuffer, R.difference.
  rewrite (difference_loop_covered s buffer visibleItems); last first.
  { intros x Hx. rewrite <- Hsame. by apply list_elem_of_fmap_2. }
  rewrite (difference_loop_covered s visibleItems buffer); last first.
  { intros x Hx. rewrite Hsame. by apply list_elem_of_fmap_2. }
  simpl. rewrite without_nil, app_nil_r. apply list_fmap_id.
Qed.

Lemma accumulateBuffer_same_projection_witness :
  accumulateBuffer sample_store [0; 1; 5; 3]%nat [5; 2; 0; 3]%nat
  = [0; 1; 5; 3]%nat.
Proof.
  apply (accumulateBuffer_same_projection sample_store
           [0; 1; 5; 3]%nat [5; 2; 0; 3]%nat).
  reflexivity.
Defined.

(** C10. From an empty buffer, a projection whose slots are pairwise
    different becomes the buffer as it is: the same slots in the same order. *)
Theorem accumulateBuffer_first_projection {A} `{EqDecision A}
    (s : store A) (visibleItems : list ref) :
  NoDup (s <$> visibleItems) →
  accumulateBuffer s [] visibleItems = visibleItems.
Proof.
  intros Hnd.
  assert (R.difference_loop s [] visibleItems = visibleItems) as Hall.
  { apply difference_loop_fresh; [done|]. intros x _. apply not_elem_of_nil. }
  unfold accumulateBuffer, R.difference. simpl. by rewrite !Hall.
Qed.

Lemma accumulateBuffer_first_projection_witness :
  accumulateBuffer sample_store [] [4; 0; 2; 3]%nat = [4; 0; 2; 3]%nat.
Proof.
  apply (accumulateBuffer_first_projection sample_store [4; 0; 2; 3]%nat).
  apply (bool_decide_eq_true_1 _). vm_compute. reflexivity.
Defined.

(** ** The page-number stream *)

(** C8. A page number is emitted twice in one epoch.  The page size is
    [20], a hundred items are known and the window holds the first fifty:
    the pages [0], [1] and [2] are emitted.  The page size becomes [10].
    Its emission reaches [combineLatest] before it reaches the flush
    notifier of [distinct]: of the pages [0] to [4] of the same window only
    [3] and [4] are new to the keys and are emitted, and then the keys are
    cleared.  The window grows to sixty items under the same page size and
    the same provider: all of the pages [0] to [5] are emitted, [3] and [4]
    for the second time since the page size changed. *)
Theorem pageNumber_twice_in_one_epoch :
  ∃ outs,
    pageNumber_stream sample_emissions = Some outs
    ∧ outs = [[]; []; [0; 1; 2]; [3; 4]; [0; 1; 2; 3; 4; 5]]
    ∧ epochs sample_emissions outs
      = [[]; [0; 1; 2]; [3; 4; 0; 1; 2; 3; 4; 5]]
    ∧ ¬ Forall NoDup (epochs sample_emissions outs).
Proof.
  eexists. split; [vm_compute; reflexivity|]. split; [reflexivity|].
  split; [reflexivity|].
  intros Hall. apply Forall_cons in Hall as [_ Hall].
  apply Forall_cons in Hall as [_ Hall].
  apply Forall_cons in Hall as [Hnd _].
  apply NoDup_cons in Hnd as [Hnot _]. apply Hnot.
  do 4 right. left.
Qed.

(** * Part 3: further properties of the code *)

(** ** The item accumulator, one page *)

Section AccumulatorMore.
Context {A : Type}.
Implicit Types (allItems : list (Value A)) (p q page : ItemsByPage A).
Implicit Types (pages : list (ItemsByPage A)) (totalLength pageSize : Z).

Lemma accumulateAllItems_swap allItems p q totalLength pageSize :
  0 ≤ totalLength → 0 < pageSize →
  0 ≤ pageNumber p → 0 ≤ pageNumber q → pageNumber p ≠ pageNumber q →
  accumulateAllItems (accumulateAllItems allItems (p, totalLength, pageSize))
    (q, totalLength, pageSize)
  = accumulateAllItems (accumulateAllItems allItems (q, totalLength, pageSize))
      (p, totalLength, pageSize).
Proof.
  intros HL Hps Hp Hq Hne. apply list_eq. intros i.
  destruct (decide (Z.of_nat i < totalLength)) as [Hi|Hi].
  - rewrite !accumulateAllItems_twice by lia.
    repeat case_decide; try done.
    exfalso. eapply (page_slices_disjoint (pageNumber p) (pageNumber q)); eauto.
  - rewrite !lookup_ge_None_2; [done| |].
    + pose proof (length_accumulateAllItems
                    (accumulateAllItems allItems (q, totalLength, pageSize))
                    p totalLength pageSize). lia.
    + pose proof (length_accumulateAllItems
                    (accumulateAllItems allItems (p, totalLength, pageSize))
                    q totalLength pageSize). lia.
Qed.

Lemma fold_pages_snoc totalLength pageSize allItems pages page :
  fold_pages totalLength pageSize allItems (pages ++ [page])
  = accumulateAllItems (fold_pages totalLength pageSize allItems pages)
      (page, totalLength, pageSize).
Proof. unfold fold_pages. by rewrite foldl_app. Qed.

Lemma length_fold_pages totalLength pageSize allItems pages :
  0 ≤ totalLength → 0 ≤ pageSize → pages ≠ [] →
  Z.of_nat (length (fold_pages totalLength pageSize allItems pages))
  = totalLength.
Proof.
  intros HL Hps Hne.
  destruct pages as [|page pages _] using rev_ind; [done|].
  rewrite fold_pages_snoc. by apply length_accumulateAllItems.
Qed.

(** An index that some page of the sequence covers holds what the pages
    say, when all pages that cover an index agree on it. *)
Lemma fold_pages_lookup_covered (expected : nat → Value A)
    totalLength pageSize pages allItems (i : nat) :
  0 ≤ totalLength → 0 < pageSize → Z.of_nat i < totalLength →
  (∀ p, p ∈ pages →
     0 ≤ pageNumber p
     ∧ ∀ j : nat,
         pageNumber p * pageSize ≤ Z.of_nat j
           < pageNumber p * pageSize + pageSize →
         default None
           (items p !! (j - Z.to_nat (pageNumber p * pageSize))%nat)
         = expected j) →
  (∃ p, p ∈ pages
        ∧ pageNumber p * pageSize ≤ Z.of_nat i
            < pageNumber p * pageSize + pageSize) →
  fold_pages totalLength pageSize allItems pages !! i = Some (expected i).
Proof.
  intros HL Hps Hi.
  induction pages as [|q pages IH] using rev_ind; intros Hagree Hcover.
  { destruct Hcover as (p & Hp & _). by apply elem_of_nil in Hp. }
  rewrite fold_pages_snoc.
  destruct (Hagree q) as [Hq Hitems]; [apply elem_of_app; right; left|].
  rewrite lookup_accumulateAllItems by lia.
  case_decide as Hin.
  - f_equal. by apply Hitems.
  - rewrite lookup_padded by done.
    rewrite IH; [done| |].
    + intros p Hp. apply Hagree. apply elem_of_app. by left.
    + destruct Hcover as (p & Hp & Hrange).
      apply elem_of_app in Hp as [Hp|Hp]; [by exists p|].
      apply list_elem_of_singleton in Hp as ->. done.
Qed.

Lemma fold_pages_permutation totalLength pageSize pages pages' :
  0 ≤ totalLength → 0 < pageSize →
  pages ≡ₚ pages' →
  (∀ p, p ∈ pages → 0 ≤ pageNumber p) →
  NoDup (pageNumber <$> pages) →
  ∀ allItems,
    fold_pages totalLength pageSize allItems pages
    = fold_pages totalLength pageSize allItems pages'.
Proof.
  intros HL Hps Hperm.
  induction Hperm as [|x l l' Hperm IH|x y l|l1 l2 l3 H12 IH12 H23 IH23];
    intros Hpos Hnd allItems.
  - done.
  - rewrite fmap_cons in Hnd. apply NoDup_cons in Hnd as [_ Hnd].
    assert (∀ p, p ∈ l → 0 ≤ pageNumber p) as Hpos'
      by (intros p Hp; apply Hpos; by right).
    exact (IH Hpos' Hnd
             (accumulateAllItems allItems (x, totalLength, pageSize))).
  - unfold fold_pages. cbn [foldl]. rewrite !fmap_cons in Hnd.
    apply NoDup_cons in Hnd as [Hy _].
    rewrite (accumulateAllItems_swap allItems y x); [done|done|done| | |].
    + apply Hpos. left.
    + apply Hpos. right. left.
    + intros Heq. apply Hy. rewrite Heq. left.
  - rewrite IH12 by done. apply IH23.
    + intros p Hp. apply Hpos. by rewrite H12.
    + by rewrite <- H12.
Qed.

End AccumulatorMore.

(** X1. One fold, for a page of any size at a page number that is not
    negative: inside the page's slice the slot at distance [k] from its start
    takes the page's item [k], or [undefined] when the page has no item [k];
    items at [pageSize] and beyond are not used; every other slot below
    [totalLength] keeps the prior value, or is [undefined] past the end of
    the prior collection. *)
Theorem accumulateAllItems_any_page {A} (allItems : list (Value A))
    (page : ItemsByPage A) (totalLength pageSize : Z) (i : nat) :
  0 ≤ totalLength → 0 ≤ pageSize → 0 ≤ pageNumber page →
  Z.of_nat i < totalLength →
  let start := pageNumber page * pageSize in
  accumulateAllItems allItems (page, totalLength, pageSize) !! i
  = if decide (start ≤ Z.of_nat i < start + pageSize)
    then Some (default None (items page !! Z.to_nat (Z.of_nat i - start)))
    else Some (default None (allItems !! i)).
Proof.
  intros HL Hps Hpn Hi start.
  rewrite lookup_accumulateAllItems by done. fold start.
  case_decide.
  - do 3 f_equal. lia.
  - by apply lookup_padded.
Qed.

Lemma accumulateAllItems_any_page_witness :
  accumulateAllItems [Some 1%nat; Some 2%nat; Some 3%nat; Some 4%nat]
    (short_page, 6, 2) !! 3%nat
  = Some None.
Proof.
  apply (accumulateAllItems_any_page
           [Some 1%nat; Some 2%nat; Some 3%nat; Some 4%nat] short_page 6 2 3);
    simpl; lia.
Defined.

(** X2. The last page written under a page number wins: folding a second
    page with the same number leaves what folding it alone would leave. *)
Theorem accumulateAllItems_overwrite {A} (allItems : list (Value A))
    (p q : ItemsByPage A) (totalLength pageSize : Z) :
  0 ≤ totalLength → 0 ≤ pageSize →
  0 ≤ pageNumber p → pageNumber p = pageNumber q →
  accumulateAllItems (accumulateAllItems allItems (p, totalLength, pageSize))
    (q, totalLength, pageSize)
  = accumulateAllItems allItems (q, totalLength, pageSize).
Proof.
  intros HL Hps Hp Heq. apply list_eq. intros i.
  destruct (decide (Z.of_nat i < totalLength)) as [Hi|Hi].
  - rewrite accumulateAllItems_twice by lia.
    rewrite (lookup_accumulateAllItems allItems q) by lia.
    rewrite Heq. by repeat case_decide.
  - rewrite !lookup_ge_None_2; [done| |].
    + pose proof (length_accumulateAllItems allItems q totalLength pageSize).
      lia.
    + pose proof (length_accumulateAllItems
                    (accumulateAllItems allItems (p, totalLength, pageSize))
                    q totalLength pageSize). lia.
Qed.

Lemma accumulateAllItems_overwrite_witness :
  accumulateAllItems (accumulateAllItems [Some 9%nat] (sample_page, 5, 2))
    (short_page, 5, 2)
  = accumulateAllItems [Some 9%nat] (short_page, 5, 2).
Proof.
  apply (accumulateAllItems_overwrite [Some 9%nat] sample_page short_page 5 2);
    simpl; lia.
Defined.

(** X3. A page whose slice starts at or beyond [totalLength] changes
    nothing: the result is the prior collection filled with [undefined] or
    cut to [totalLength]. *)
Theorem accumulateAllItems_page_beyond {A} (allItems : list (Value A))
    (page : ItemsByPage A) (totalLength pageSize : Z) :
  0 ≤ totalLength → 0 ≤ pageSize → 0 ≤ pageNumber page →
  totalLength ≤ pageNumber page * pageSize →
  accumulateAllItems allItems (page, totalLength, pageSize)
  = take (Z.to_nat totalLength)
      (allItems
         ++ replicate (Z.to_nat (totalLength - Z.of_nat (length allItems))) None).
Proof.
  intros HL Hps Hpn Hbeyond. apply list_eq. intros i.
  destruct (decide (Z.of_nat i < totalLength)) as [Hi|Hi].
  - rewrite lookup_accumulateAllItems by done.
    rewrite decide_False by lia. rewrite lookup_take_lt by lia.
    unfold padded, Js.fill. do 3 f_equal. lia.
  - rewrite lookup_take_ge by lia. apply lookup_ge_None_2.
    pose proof (length_accumulateAllItems allItems page totalLength pageSize).
    lia.
Qed.

Lemma accumulateAllItems_page_beyond_witness :
  accumulateAllItems [Some 1%nat; Some 2%nat; Some 3%nat] (sample_page, 2, 2)
  = [Some 1%nat; Some 2%nat].
Proof.
  apply (accumulateAllItems_page_beyond
           [Some 1%nat; Some 2%nat; Some 3%nat] sample_page 2 2); simpl; lia.
Defined.

(** ** The item accumulator, many pages *)

Section ScanFacts.
Context {S X : Type} (f : S → X → S).

Lemma scan_Forall2 (P : X → Prop) (Q : S → X → Prop) (l : list X) :
  (∀ acc x, P x → Q (f acc x) x) →
  Forall P l → ∀ seed, Forall2 Q (scan f seed l) l.
Proof.
  intros Hstep Hl. induction Hl as [|x l Hx _ IH]; intros seed; simpl.
  - constructor.
  - constructor; [by apply Hstep|apply IH].
Qed.

End ScanFacts.

(** X4. Pages with pairwise different page numbers can arrive in any order:
    under one total length and one page size, every order of arrival leaves
    the same collection. *)
Theorem fold_pages_any_order {A} (allItems : list (Value A))
    (pages pages' : list (ItemsByPage A)) (totalLength pageSize : Z) :
  0 ≤ totalLength → 0 < pageSize →
  pages ≡ₚ pages' →
  Forall (λ p, 0 ≤ pageNumber p) pages →
  NoDup (pageNumber <$> pages) →
  fold_pages totalLength pageSize allItems pages
  = fold_pages totalLength pageSize allItems pages'.
Proof.
  intros HL Hps Hperm Hpos Hnd.
  apply fold_pages_permutation; try done.
  by apply Forall_forall.
Qed.

Lemma fold_pages_any_order_witness :
  fold_pages 5 2 [Some 9%nat] [long_page; short_page]
  = fold_pages 5 2 [Some 9%nat] [short_page; long_page].
Proof.
  apply (fold_pages_any_order [Some 9%nat]
           [long_page; short_page] [short_page; long_page] 5 2).
  - lia.
  - lia.
  - apply perm_swap.
  - repeat constructor; simpl; lia.
  - apply (bool_decide_eq_true_1 _). vm_compute. reflexivity.
Defined.

(** X5. Fetching reconstructs the data: when the provider serves the slices
    of a data set and every page that starts inside the data set has
    arrived, in any order and any number of times, the collection is the
    data set, whatever the collection was before. *)
Theorem fold_pages_round_trip {A} (data allItems : list (Value A))
    (pageSize : Z) (pageNumbers : list Z) :
  0 < pageSize → pageNumbers ≠ [] →
  Forall (λ n, 0 ≤ n) pageNumbers →
  (∀ n, 0 ≤ n → n * pageSize < Z.of_nat (length data) → n ∈ pageNumbers) →
  fold_pages (Z.of_nat (length data)) pageSize allItems
    ((λ n, callPageProvider n pageSize (slicing_provider data))
       <$> pageNumbers)
  = data.
Proof.
  intros Hps Hne Hpos Hall.
  set (pages := _ <$> pageNumbers).
  assert (pages ≠ []) as Hpages by (by destruct pageNumbers).
  apply list_eq. intros i.
  destruct (decide (i < length data)%nat) as [Hi|Hi]; last first.
  { rewrite (lookup_ge_None_2 data) by lia. apply lookup_ge_None_2.
    assert (Z.of_nat (length (fold_pages (Z.of_nat (length data)) pageSize
                                allItems pages))
            = Z.of_nat (length data)) as Hlen
      by (apply length_fold_pages; [lia|lia|done]).
    lia. }
  rewrite (fold_pages_lookup_covered (λ j, default None (data !! j))) ; try lia.
  - by destruct (lookup_lt_is_Some_2 _ _ Hi) as [v ->].
  - intros p Hp. apply list_elem_of_fmap in Hp as (n & -> & Hn).
    rewrite Forall_forall in Hpos. specialize (Hpos n Hn).
    split; [done|]. intros j Hj. simpl in *.
    unfold slicing_provider. rewrite slice_nonneg by lia.
    rewrite lookup_take_lt by lia. rewrite lookup_drop. do 2 f_equal. lia.
  - exists (callPageProvider (Z.of_nat i `div` pageSize) pageSize
              (slicing_provider data)).
    split.
    + apply list_elem_of_fmap. eexists. split; [done|].
      apply Hall; [apply Z.div_pos; lia|].
      pose proof (Z.mul_div_le (Z.of_nat i) pageSize). lia.
    + simpl.
      pose proof (Z.mul_div_le (Z.of_nat i) pageSize).
      pose proof (Z.mul_succ_div_gt (Z.of_nat i) pageSize). lia.
Qed.

Lemma fold_pages_round_trip_witness :
  fold_pages 5 2 [Some 1%nat; Some 2%nat; Some 3%nat; Some 4%nat;
                  Some 5%nat; Some 6%nat; Some 7%nat]
    ((λ n, callPageProvider n 2 (slicing_provider sample_data))
       <$> [2; 0; 1; 0])
  = sample_data.
Proof.
  apply (fold_pages_round_trip sample_data
           [Some 1%nat; Some 2%nat; Some 3%nat; Some 4%nat;
            Some 5%nat; Some 6%nat; Some 7%nat] 2 [2; 0; 1; 0]).
  - lia.
  - discriminate.
  - repeat constructor; lia.
  - intros n Hn Hlt. simpl in Hlt.
    assert (n = 0 ∨ n = 1 ∨ n = 2) as [-> | [-> | ->]] by lia;
      apply (bool_decide_eq_true_1 _); vm_compute; reflexivity.
Defined.

(** X6. Every collection that [allItems$] emits has as many slots as the
    total length it was folded with, as long as total lengths and page sizes
    are not negative. *)
Theorem allItems_stream_lengths {A} (latest : list (ItemsByPage A * Z * Z)) :
  Forall (λ t, 0 ≤ t.1.2 ∧ 0 ≤ t.2) latest →
  Forall2 (λ (out : list (Value A)) t, Z.of_nat (length out) = t.1.2)
    (allItems_stream latest) latest.
Proof.
  intros Hall. unfold allItems_stream.
  apply (scan_Forall2 _ (λ t, 0 ≤ t.1.2 ∧ 0 ≤ t.2)); [|done].
  intros acc [[page totalLength] pageSize] [HL Hps].
  by apply length_accumulateAllItems.
Qed.

Lemma allItems_stream_lengths_witness :
  Forall2 (λ (out : list (Value nat)) t, Z.of_nat (length out) = t.1.2)
    (allItems_stream [(sample_page, 5, 2); (short_page, 3, 2);
                      (long_page, 4, 3)])
    [(sample_page, 5, 2); (short_page, 3, 2); (long_page, 4, 3)].
Proof.
  apply (allItems_stream_lengths
           [(sample_page, 5, 2); (short_page, 3, 2); (long_page, 4, 3)]).
  repeat constructor; simpl; lia.
Defined.

(** ** The buffer recycler, in general *)

Section MapFacts.
Implicit Types (m : JsMap.t) (k v : ref).

Lemma get_None k m : k ∉ m.*1 → JsMap.get k m = None.
Proof.
  intros Hk. unfold JsMap.get.
  destruct (list_find _ m) as [[i [k' v]]|] eqn:E; [|done].
  apply list_find_Some in E as (Hi & Hkey & _). simpl in Hkey. subst k'.
  exfalso. apply Hk. apply list_elem_of_fmap. exists (k, v).
  split; [done|]. by eapply list_elem_of_lookup_2.
Qed.

Lemma get_Some_elem_of k v m : JsMap.get k m = Some v → (k, v) ∈ m.
Proof.
  unfold JsMap.get. intros Hget.
  destruct (list_find _ m) as [[i [k' v']]|] eqn:E; [|done].
  apply list_find_Some in E as (Hi & Hkey & _). simpl in *.
  injection Hget as <-. subst k'. by eapply list_elem_of_lookup_2.
Qed.

Lemma NoDup_fst_unique {X Y} (l : list (X * Y)) x y1 y2 :
  NoDup l.*1 → (x, y1) ∈ l → (x, y2) ∈ l → y1 = y2.
Proof.
  intros Hnd H1 H2.
  apply list_elem_of_lookup in H1 as [i Hi].
  apply list_elem_of_lookup in H2 as [j Hj].
  assert (i = j) as ->.
  { apply (NoDup_lookup l.*1 i j x Hnd); rewrite list_lookup_fmap.
    - by rewrite Hi.
    - by rewrite Hj. }
  congruence.
Qed.

Lemma NoDup_snd_unique {X Y} (l : list (X * Y)) x1 x2 y :
  NoDup l.*2 → (x1, y) ∈ l → (x2, y) ∈ l → x1 = x2.
Proof.
  intros Hnd H1 H2.
  apply list_elem_of_lookup in H1 as [i Hi].
  apply list_elem_of_lookup in H2 as [j Hj].
  assert (i = j) as ->.
  { apply (NoDup_lookup l.*2 i j y Hnd); rewrite list_lookup_fmap.
    - by rewrite Hi.
    - by rewrite Hj. }
  congruence.
Qed.

Lemma get_elem_of k v m : NoDup m.*1 → (k, v) ∈ m → JsMap.get k m = Some v.
Proof.
  intros Hnd Hin.
  destruct (JsMap.get k m) as [v'|] eqn:E.
  - apply get_Some_elem_of in E. f_equal.
    by apply (NoDup_fst_unique m k).
  - exfalso. unfold JsMap.get in E.
    destruct (list_find _ m) as [?|] eqn:E'; [done|].
    apply list_find_None in E'. rewrite Forall_forall in E'.
    by apply (E' (k, v)).
Qed.

Lemma set_keys k v m k' : k' ∈ (JsMap.set k v m).*1 → k' = k ∨ k' ∈ m.*1.
Proof.
  unfold JsMap.set. destruct (JsMap.has k m).
  - rewrite <- list_fmap_compose. intros Hin.
    apply list_elem_of_fmap in Hin as ([k0 v0] & -> & Hin). simpl.
    case_decide; simpl; [by left|]. right.
    apply list_elem_of_fmap. by exists (k0, v0).
  - rewrite fmap_app, elem_of_app. simpl. rewrite list_elem_of_singleton.
    tauto.
Qed.

Lemma set_values k v m v' : v' ∈ (JsMap.set k v m).*2 → v' = v ∨ v' ∈ m.*2.
Proof.
  unfold JsMap.set. destruct (JsMap.has k m).
  - rewrite <- list_fmap_compose. intros Hin.
    apply list_elem_of_fmap in Hin as ([k0 v0] & -> & Hin). simpl.
    case_decide; simpl; [by left|]. right.
    apply list_elem_of_fmap. by exists (k0, v0).
  - rewrite fmap_app, elem_of_app. simpl. rewrite list_elem_of_singleton.
    tauto.
Qed.

Lemma of_entries_keys_values (entries : list (ref * ref)) :
  (∀ k, k ∈ (JsMap.of_entries entries).*1 → k ∈ entries.*1)
  ∧ (∀ v, v ∈ (JsMap.of_entries entries).*2 → v ∈ entries.*2).
Proof.
  unfold JsMap.of_entries.
  assert (∀ acc : JsMap.t,
            (∀ k, k ∈ (foldl (λ m e, JsMap.set e.1 e.2 m) acc entries).*1 →
                  k ∈ acc.*1 ∨ k ∈ entries.*1)
            ∧ (∀ v, v ∈ (foldl (λ m e, JsMap.set e.1 e.2 m) acc entries).*2 →
                    v ∈ acc.*2 ∨ v ∈ entries.*2)) as Hgen.
  { induction entries as [|[k0 v0] entries IH]; intros acc; simpl.
    - split; intros ? ?; by left.
    - destruct (IH (JsMap.set k0 v0 acc)) as [IHk IHv]. split.
      + intros k Hk. rewrite elem_of_cons.
        destruct (IHk k Hk) as [Hacc|?]; [|tauto].
        apply set_keys in Hacc. tauto.
      + intros v Hv. rewrite elem_of_cons.
        destruct (IHv v Hv) as [Hacc|?]; [|tauto].
        apply set_values in Hacc. tauto. }
  destruct (Hgen []) as [Hk Hv]. split.
  - intros k Hin. destruct (Hk k Hin) as [Hnil|?]; [|done].
    by apply elem_of_nil in Hnil.
  - intros v Hin. destruct (Hv v Hin) as [Hnil|?]; [|done].
    by apply elem_of_nil in Hnil.
Qed.

(** Entries with pairwise different keys are stored as they come. *)
Lemma of_entries_NoDup (entries : list (ref * ref)) :
  NoDup entries.*1 → JsMap.of_entries entries = entries.
Proof.
  unfold JsMap.of_entries.
  assert (∀ acc : JsMap.t,
            NoDup (acc ++ entries).*1 →
            foldl (λ m e, JsMap.set e.1 e.2 m) acc entries = acc ++ entries)
    as Hgen.
  { induction entries as [|[k v] entries IH]; intros acc Hnd; simpl.
    - by rewrite app_nil_r.
    - assert (JsMap.set k v acc = acc ++ [(k, v)]) as ->.
      { unfold JsMap.set, JsMap.has. rewrite bool_decide_eq_false_2; [done|].
        rewrite fmap_app in Hnd. apply NoDup_app in Hnd as (_ & Hdisj & _).
        intros Hin. apply (Hdisj k Hin). simpl. left. }
      rewrite IH; rewrite <- app_assoc; done. }
  intros Hnd. by apply (Hgen []).
Qed.

Lemma zip_fst_take {X Y} (l : list X) (k : list Y) :
  (zip l k).*1 = take (length k) l.
Proof.
  revert k. induction l as [|x l IH]; intros [|y k]; simpl; try done.
  by rewrite IH.
Qed.

Lemma zip_snd_take {X Y} (l : list X) (k : list Y) :
  (zip l k).*2 = take (length l) k.
Proof.
  revert k. induction l as [|x l IH]; intros [|y k]; simpl; try done.
  by rewrite IH.
Qed.

End MapFacts.

Section RecyclerMore.
Context {O : Type} `{EqDecision O}.
Implicit Types (s : ref → O) (xs first seen : list ref).

Lemma difference_loop_sublist s seen first :
  R.difference_loop s seen first `sublist_of` first.
Proof.
  revert seen. induction first as [|x rest IH]; intros seen; simpl.
  - constructor.
  - destruct (R.includes s x seen).
    + by apply sublist_cons.
    + by apply sublist_skip.
Qed.

Lemma elem_of_difference_loop s seen first x :
  x ∈ R.difference_loop s seen first → x ∈ first ∧ s x ∉ s <$> seen.
Proof.
  intros Hin. split.
  { eapply elem_of_sublist; [done|]. apply difference_loop_sublist. }
  revert seen Hin. induction first as [|y rest IH]; intros seen Hin; simpl in *.
  - by apply elem_of_nil in Hin.
  - destruct (R.includes s y seen) eqn:E; [by apply IH|].
    apply elem_of_cons in Hin as [->|Hin]; [by apply includes_false|].
    apply IH in Hin. rewrite fmap_app, elem_of_app in Hin. tauto.
Qed.

Lemma elem_of_difference_loop_2 s seen first x :
  NoDup (s <$> first) → x ∈ first → s x ∉ s <$> seen →
  x ∈ R.difference_loop s seen first.
Proof.
  revert seen. induction first as [|y rest IH]; intros seen Hnd Hin Hout.
  - by apply elem_of_nil in Hin.
  - rewrite fmap_cons in Hnd. apply NoDup_cons in Hnd as [Hy Hnd]. simpl.
    apply elem_of_cons in Hin as [->|Hin].
    + apply includes_false in Hout. rewrite Hout. left.
    + destruct (R.includes s y seen); [by apply IH|].
      right. apply IH; [done|done|].
      rewrite fmap_app, elem_of_app. intros [?|Heq]; [done|].
      simpl in Heq. apply list_elem_of_singleton in Heq.
      apply Hy. rewrite <- Heq. by apply list_elem_of_fmap_2.
Qed.

(** Every element of the first argument equals one that is filtered out at
    the start or one that is put out. *)
Lemma difference_loop_covers s seen first x :
  x ∈ first →
  s x ∈ s <$> seen ∨ s x ∈ s <$> R.difference_loop s seen first.
Proof.
  revert seen. induction first as [|y rest IH]; intros seen Hin.
  - by apply elem_of_nil in Hin.
  - simpl. destruct (R.includes s y seen) eqn:E.
    + apply elem_of_cons in Hin as [->|Hin]; [|by apply IH].
      left. by apply includes_true.
    + rewrite fmap_cons, elem_of_cons.
      apply elem_of_cons in Hin as [->|Hin]; [tauto|].
      destruct (IH (seen ++ [y]) Hin) as [Hs|?]; [|tauto].
      rewrite fmap_app, elem_of_app in Hs. destruct Hs as [?|Hs]; [tauto|].
      simpl in Hs. apply list_elem_of_singleton in Hs. tauto.
Qed.

Lemma elem_of_without s xs l x :
  x ∈ R.without s xs l ↔ x ∈ l ∧ s x ∉ s <$> xs.
Proof.
  unfold R.without. rewrite list_elem_of_filter, includes_false. tauto.
Qed.

(** In a list with pairwise different contents, the contents of a prefix
    and of the rest are apart. *)
Lemma contents_take_drop s (l : list ref) (n : nat) x :
  NoDup (s <$> l) → x ∈ drop n l → s x ∉ s <$> take n l.
Proof.
  intros Hnd Hx Hin.
  rewrite <- (take_drop n l), fmap_app in Hnd.
  apply NoDup_app in Hnd as (_ & Hdisj & _).
  apply (Hdisj (s x) Hin). by apply list_elem_of_fmap_2.
Qed.

Lemma elem_of_take_or_drop (l : list ref) (n : nat) x :
  x ∈ l ↔ x ∈ take n l ∨ x ∈ drop n l.
Proof. by rewrite <- elem_of_app, take_drop. Qed.

End RecyclerMore.

Section NextBuffer.
Context {A : Type} `{EqDecision A}.
Variables (s : store A) (buffer visibleItems : list ref).

Local Abbreviation itemsToAdd := (R.difference s visibleItems buffer).
Local Abbreviation itemsFreeToUse := (R.difference s buffer visibleItems).
Local Abbreviation entries := (R.zip itemsFreeToUse itemsToAdd).
Local Abbreviation replaceMap := (JsMap.of_entries entries).

Lemma itemsToAdd_elem y :
  y ∈ itemsToAdd → y ∈ visibleItems ∧ s y ∉ s <$> buffer.
Proof. apply elem_of_difference_loop. Qed.

Lemma itemsFreeToUse_elem x :
  x ∈ itemsFreeToUse → x ∈ buffer ∧ s x ∉ s <$> visibleItems.
Proof. apply elem_of_difference_loop. Qed.

Lemma replaceMap_keys k :
  k ∈ JsMap.keys replaceMap → k ∈ itemsFreeToUse.
Proof.
  intros Hk. apply of_entries_keys_values in Hk.
  unfold R.zip in Hk. rewrite zip_fst_take in Hk.
  apply elem_of_take in Hk as (i & Hi & _). by eapply list_elem_of_lookup_2.
Qed.

Lemma replaceMap_values v :
  v ∈ JsMap.values replaceMap → v ∈ itemsToAdd.
Proof.
  intros Hv. apply of_entries_keys_values in Hv.
  unfold R.zip in Hv. rewrite zip_snd_take in Hv.
  apply elem_of_take in Hv as (i & Hi & _). by eapply list_elem_of_lookup_2.
Qed.

(** An object of the buffer whose contents are still projected stays, as it
    is. *)
Lemma accumulateBuffer_keeps x :
  x ∈ buffer → s x ∈ s <$> visibleItems →
  x ∈ accumulateBuffer s buffer visibleItems.
Proof.
  intros Hx Hvis. unfold accumulateBuffer. cbv zeta.
  apply elem_of_app. left. apply list_elem_of_fmap. exists x.
  assert (x ∉ itemsFreeToUse) as Hfree.
  { intros Hin. by apply itemsFreeToUse_elem in Hin as [_ Hout]. }
  split.
  - rewrite get_None; [done|]. intros Hk. by apply replaceMap_keys in Hk.
  - apply elem_of_without. split; [done|]. intros Hdel.
    apply list_elem_of_fmap in Hdel as (d & Heq & Hd).
    apply elem_of_difference_loop in Hd as [Hd _].
    apply itemsFreeToUse_elem in Hd as [_ Hout]. by rewrite <- Heq in Hout.
Qed.

(** Every object of the next buffer comes from the buffer or from the
    projection. *)
Lemma accumulateBuffer_from y :
  y ∈ accumulateBuffer s buffer visibleItems →
  y ∈ buffer ∨ y ∈ visibleItems.
Proof.
  unfold accumulateBuffer. cbv zeta. rewrite elem_of_app.
  intros [Hin|Hin].
  - apply list_elem_of_fmap in Hin as (x & -> & Hx).
    apply elem_of_without in Hx as [Hx _].
    destruct (JsMap.get x replaceMap) as [v|] eqn:E; simpl; [|by left].
    right. apply get_Some_elem_of in E.
    assert (v ∈ JsMap.values replaceMap) as Hv.
    { apply list_elem_of_fmap. by exists (x, v). }
    apply replaceMap_values in Hv. by apply itemsToAdd_elem in Hv as [? _].
  - right. apply elem_of_difference_loop in Hin as [Hin _].
    by apply itemsToAdd_elem in Hin as [? _].
Qed.

(** With nothing projected nothing stays. *)
Lemma accumulateBuffer_nothing_visible :
  visibleItems = [] → accumulateBuffer s buffer visibleItems = [].
Proof.
  intros ->. unfold accumulateBuffer. cbv zeta.
  assert (R.difference s [] buffer = []) as -> by done.
  unfold R.zip. rewrite zip_with_nil_r. simpl. rewrite app_nil_r.
  assert (R.without s (R.difference s (R.difference s buffer []) []) buffer
          = []) as ->; [|done].
  apply elem_of_nil_inv. intros x Hx.
  apply elem_of_without in Hx as [Hx Hout]. apply Hout.
  destruct (difference_loop_covers s [] buffer x Hx) as [Hnil|Hin].
  { by apply elem_of_nil in Hnil. }
  apply list_elem_of_fmap in Hin as (d & Heq & Hd). rewrite Heq.
  destruct (difference_loop_covers s [] (R.difference s buffer []) d Hd)
    as [Hnil|Hin]; [by apply elem_of_nil in Hnil|done].
Qed.

End NextBuffer.

Section NextBufferDistinct.
Context {A : Type} `{EqDecision A}.
Variables (s : store A) (buffer visibleItems : list ref).
Hypothesis buffer_distinct : NoDup (s <$> buffer).
Hypothesis visible_distinct : NoDup (s <$> visibleItems).

Local Abbreviation itemsToAdd := (R.difference s visibleItems buffer).
Local Abbreviation itemsFreeToUse := (R.difference s buffer visibleItems).
Local Abbreviation entries := (R.zip itemsFreeToUse itemsToAdd).
Local Abbreviation replaceMap := (JsMap.of_entries entries).
Local Abbreviation itemsToDelete :=
  (R.difference s itemsFreeToUse (JsMap.keys replaceMap)).
Local Abbreviation itemsToAppend :=
  (R.difference s itemsToAdd (JsMap.values replaceMap)).

Lemma itemsToAdd_distinct : NoDup (s <$> itemsToAdd).
Proof.
  apply (sublist_NoDup _ (s <$> visibleItems)); [exact visible_distinct|].
  apply fmap_sublist, difference_loop_sublist.
Qed.

Lemma itemsFreeToUse_distinct : NoDup (s <$> itemsFreeToUse).
Proof.
  apply (sublist_NoDup _ (s <$> buffer)); [exact buffer_distinct|].
  apply fmap_sublist, difference_loop_sublist.
Qed.

Lemma itemsToAdd_spec y :
  y ∈ itemsToAdd ↔ y ∈ visibleItems ∧ s y ∉ s <$> buffer.
Proof.
  split; [apply elem_of_difference_loop|].
  intros [Hy Hout]. by apply elem_of_difference_loop_2.
Qed.

Lemma itemsFreeToUse_spec x :
  x ∈ itemsFreeToUse ↔ x ∈ buffer ∧ s x ∉ s <$> visibleItems.
Proof.
  split; [apply elem_of_difference_loop|].
  intros [Hx Hout]. by apply elem_of_difference_loop_2.
Qed.

Lemma replaceMap_entries : replaceMap = entries.
Proof.
  apply of_entries_NoDup. unfold R.zip. rewrite zip_fst_take.
  apply (sublist_NoDup _ itemsFreeToUse); [|apply sublist_take].
  apply (NoDup_fmap_1 s), itemsFreeToUse_distinct.
Qed.

Lemma replaceMap_keys_take :
  JsMap.keys replaceMap = take (length itemsToAdd) itemsFreeToUse.
Proof.
  rewrite replaceMap_entries. unfold JsMap.keys, R.zip. apply zip_fst_take.
Qed.

Lemma replaceMap_values_take :
  JsMap.values replaceMap = take (length itemsFreeToUse) itemsToAdd.
Proof.
  rewrite replaceMap_entries. unfold JsMap.values, R.zip. apply zip_snd_take.
Qed.

(** In a list of pairwise different contents, what [difference] leaves of
    the list against one of its prefixes is the rest. *)
Lemma difference_prefix (l : list ref) (n : nat) x :
  NoDup (s <$> l) →
  x ∈ R.difference s l (take n l) ↔ x ∈ drop n l.
Proof.
  intros Hnd. split.
  - intros Hin. apply elem_of_difference_loop in Hin as [Hin Hout].
    apply (elem_of_take_or_drop l n) in Hin as [Hin|Hin]; [|done].
    exfalso. apply Hout. by apply list_elem_of_fmap_2.
  - intros Hin. apply elem_of_difference_loop_2; [done| |].
    + apply (elem_of_take_or_drop l n). by right.
    + by apply contents_take_drop.
Qed.

Lemma itemsToDelete_spec x :
  x ∈ itemsToDelete ↔ x ∈ drop (length itemsToAdd) itemsFreeToUse.
Proof.
  rewrite replaceMap_keys_take.
  apply difference_prefix, itemsFreeToUse_distinct.
Qed.

Lemma itemsToAppend_spec y :
  y ∈ itemsToAppend ↔ y ∈ drop (length itemsFreeToUse) itemsToAdd.
Proof.
  rewrite replaceMap_values_take.
  apply difference_prefix, itemsToAdd_distinct.
Qed.

(** Two objects of one list of pairwise different contents that hold equal
    contents are one object. *)
Lemma same_contents (l : list ref) x y :
  NoDup (s <$> l) → x ∈ l → y ∈ l → s x = s y → x = y.
Proof.
  intros Hnd Hx Hy Heq.
  apply list_elem_of_lookup in Hx as [i Hi].
  apply list_elem_of_lookup in Hy as [j Hj].
  assert (i = j) as ->; [|congruence].
  apply (NoDup_lookup (s <$> l) i j (s x) Hnd); rewrite list_lookup_fmap.
  - by rewrite Hi.
  - by rewrite Hj, Heq.
Qed.

(** What the replacement does to an object that is not deleted. *)
Lemma replacement_cases x :
  x ∈ R.without s itemsToDelete buffer →
  (JsMap.get x replaceMap = None ∧ s x ∈ s <$> visibleItems)
  ∨ (∃ v, JsMap.get x replaceMap = Some v
          ∧ v ∈ JsMap.values replaceMap ∧ x ∈ itemsFreeToUse).
Proof.
  intros Hx. apply elem_of_without in Hx as [Hx Hkept].
  destruct (decide (x ∈ itemsFreeToUse)) as [Hfree|Hfree].
  - right.
    assert (x ∈ JsMap.keys replaceMap) as Hkey.
    { rewrite replaceMap_keys_take.
      apply (elem_of_take_or_drop _ (length itemsToAdd)) in Hfree
        as [?|Hdrop]; [done|].
      exfalso. apply Hkept. apply list_elem_of_fmap_2.
      by apply itemsToDelete_spec. }
    apply list_elem_of_fmap in Hkey as ([k v] & -> & Hkv). simpl in *.
    exists v. split; [|split; [|done]].
    + apply get_elem_of; [|done]. rewrite replaceMap_entries.
      unfold R.zip. rewrite zip_fst_take.
      apply (sublist_NoDup _ itemsFreeToUse); [|apply sublist_take].
      apply (NoDup_fmap_1 s), itemsFreeToUse_distinct.
    + apply list_elem_of_fmap. by exists (k, v).
  - left. split.
    + apply get_None. intros Hk. apply Hfree.
      change (x ∈ JsMap.keys replaceMap) in Hk.
      rewrite replaceMap_keys_take in Hk.
      apply elem_of_take in Hk as (i & Hi & _).
      by eapply list_elem_of_lookup_2.
    + destruct (decide (s x ∈ s <$> visibleItems)) as [?|Hout]; [done|].
      exfalso. apply Hfree. by apply itemsFreeToUse_spec.
Qed.

(** The objects of the next buffer: the objects of the buffer whose
    contents are projected, and the objects of the projection whose
    contents are new. *)
Lemma accumulateBuffer_elem y :
  y ∈ accumulateBuffer s buffer visibleItems
  ↔ (y ∈ buffer ∧ s y ∈ s <$> visibleItems)
    ∨ (y ∈ visibleItems ∧ s y ∉ s <$> buffer).
Proof.
  split.
  - unfold accumulateBuffer. cbv zeta. rewrite elem_of_app.
    intros [Hin|Hin].
    + apply list_elem_of_fmap in Hin as (x & -> & Hx).
      destruct (replacement_cases x Hx) as [[-> Hvis]|(v & -> & Hv & _)];
        simpl.
      * left. split; [|done]. by apply elem_of_without in Hx as [? _].
      * right. apply itemsToAdd_spec.
        rewrite replaceMap_values_take in Hv.
        apply elem_of_take in Hv as (i & Hi & _).
        by eapply list_elem_of_lookup_2.
    + right. apply itemsToAdd_spec. apply itemsToAppend_spec in Hin.
      apply (elem_of_take_or_drop _ (length itemsFreeToUse)). by right.
  - intros [[Hy Hvis]|Hnew]; [by apply accumulateBuffer_keeps|].
    apply itemsToAdd_spec in Hnew.
    unfold accumulateBuffer. cbv zeta. rewrite elem_of_app.
    apply (elem_of_take_or_drop _ (length itemsFreeToUse)) in Hnew
      as [Hval|Happ]; [left|right; by apply itemsToAppend_spec].
    rewrite <- replaceMap_values_take in Hval.
    apply list_elem_of_fmap in Hval as ([x v] & -> & Hxv). simpl.
    assert (NoDup (JsMap.keys replaceMap)) as Hkeys.
    { rewrite replaceMap_keys_take.
      apply (sublist_NoDup _ itemsFreeToUse); [|apply sublist_take].
      apply (NoDup_fmap_1 s), itemsFreeToUse_distinct. }
    assert (x ∈ take (length itemsToAdd) itemsFreeToUse) as Hx.
    { rewrite <- replaceMap_keys_take. apply list_elem_of_fmap.
      by exists (x, v). }
    apply list_elem_of_fmap. exists x. split.
    + by rewrite (get_elem_of x v replaceMap Hkeys Hxv).
    + apply elem_of_without. split.
      * apply elem_of_take in Hx as (i & Hi & _).
        apply list_elem_of_lookup_2 in Hi.
        by apply itemsFreeToUse_spec in Hi as [? _].
      * intros Hdel. apply list_elem_of_fmap in Hdel as (d & Heq & Hd).
        apply itemsToDelete_spec in Hd.
        apply (contents_take_drop s itemsFreeToUse (length itemsToAdd) d);
          [apply itemsFreeToUse_distinct|done|].
        rewrite <- Heq. by apply list_elem_of_fmap_2.
Qed.

End NextBufferDistinct.

Section NextBufferContents.
Context {A : Type} `{EqDecision A}.
Variables (s : store A) (buffer visibleItems : list ref).
Hypothesis buffer_distinct : NoDup (s <$> buffer).
Hypothesis visible_distinct : NoDup (s <$> visibleItems).

Local Abbreviation itemsToAdd := (R.difference s visibleItems buffer).
Local Abbreviation itemsFreeToUse := (R.difference s buffer visibleItems).
Local Abbreviation replaceMap :=
  (JsMap.of_entries (R.zip itemsFreeToUse itemsToAdd)).
Local Abbreviation itemsToDelete :=
  (R.difference s itemsFreeToUse (JsMap.keys replaceMap)).
Local Abbreviation itemsToAppend :=
  (R.difference s itemsToAdd (JsMap.values replaceMap)).
Local Abbreviation replaced :=
  ((λ item, default item (JsMap.get item replaceMap))
     <$> R.without s itemsToDelete buffer).

Lemma itemsToAdd_refs_distinct : NoDup itemsToAdd.
Proof.
  apply (NoDup_fmap_1 s). by apply itemsToAdd_distinct.
Qed.

Lemma replaceMap_values_distinct : NoDup (JsMap.values replaceMap).
Proof.
  rewrite replaceMap_values_take by done.
  apply (sublist_NoDup _ itemsToAdd); [|apply sublist_take].
  apply itemsToAdd_refs_distinct.
Qed.

Lemma value_is_new v :
  v ∈ JsMap.values replaceMap → s v ∉ s <$> buffer.
Proof.
  intros Hv. apply replaceMap_values in Hv.
  by apply itemsToAdd_elem in Hv as [_ ?].
Qed.

Lemma replaced_distinct : NoDup replaced.
Proof.
  apply NoDup_fmap_2_strong; last first.
  { apply (sublist_NoDup _ buffer).
    - by apply (NoDup_fmap_1 s).
    - apply sublist_filter. }
  intros x1 x2 H1 H2 Heq.
  assert (x1 ∈ buffer) as Hb1 by (by apply elem_of_without in H1 as [? _]).
  assert (x2 ∈ buffer) as Hb2 by (by apply elem_of_without in H2 as [? _]).
  destruct (replacement_cases s buffer visibleItems buffer_distinct x1 H1) as [[E1 _]|(v1 & E1 & Hv1 & _)];
    destruct (replacement_cases s buffer visibleItems buffer_distinct x2 H2) as [[E2 _]|(v2 & E2 & Hv2 & _)];
    rewrite E1, E2 in Heq; simpl in Heq.
  - done.
  - subst x1. exfalso. apply (value_is_new v2 Hv2).
    by apply list_elem_of_fmap_2.
  - subst x2. exfalso. apply (value_is_new v1 Hv1).
    by apply list_elem_of_fmap_2.
  - subst v2. apply get_Some_elem_of in E1, E2.
    apply (NoDup_snd_unique replaceMap x1 x2 v1); [|done|done].
    apply replaceMap_values_distinct.
Qed.

Lemma accumulateBuffer_refs_distinct :
  NoDup (accumulateBuffer s buffer visibleItems).
Proof.
  unfold accumulateBuffer. cbv zeta. apply NoDup_app. split; [|split].
  - apply replaced_distinct.
  - intros y Hy Happ.
    apply itemsToAppend_spec in Happ; [|done|done].
    apply list_elem_of_fmap in Hy as (x & -> & Hx).
    destruct (replacement_cases s buffer visibleItems buffer_distinct x Hx) as [[E _]|(v & E & Hv & _)];
      rewrite E in Happ; simpl in Happ.
    + apply elem_of_without in Hx as [Hx _].
      assert (x ∈ itemsToAdd) as Hadd.
      { apply (elem_of_take_or_drop _ (length itemsFreeToUse)). by right. }
      apply itemsToAdd_elem in Hadd as [_ Hnew].
      apply Hnew. by apply list_elem_of_fmap_2.
    + rewrite replaceMap_values_take in Hv by done.
      pose proof itemsToAdd_refs_distinct as Hnd.
      rewrite <- (take_drop (length itemsFreeToUse) itemsToAdd) in Hnd.
      apply NoDup_app in Hnd as (_ & Hdisj & _). by apply (Hdisj v).
  - apply (sublist_NoDup _ itemsToAdd).
    + apply itemsToAdd_refs_distinct.
    + apply difference_loop_sublist.
Qed.

Lemma accumulateBuffer_contents_distinct :
  NoDup (s <$> accumulateBuffer s buffer visibleItems).
Proof.
  apply NoDup_fmap_2_strong; [|apply accumulateBuffer_refs_distinct].
  intros x y Hx Hy Heq.
  apply accumulateBuffer_elem in Hx as [[Hx Hxv]|[Hx Hxn]]; try done;
    apply accumulateBuffer_elem in Hy as [[Hy Hyv]|[Hy Hyn]]; try done.
  - by apply (same_contents s buffer).
  - exfalso. apply Hyn. rewrite <- Heq. by apply list_elem_of_fmap_2.
  - exfalso. apply Hxn. rewrite Heq. by apply list_elem_of_fmap_2.
  - by apply (same_contents s visibleItems).
Qed.

Lemma accumulateBuffer_contents :
  s <$> accumulateBuffer s buffer visibleItems ≡ₚ s <$> visibleItems.
Proof.
  apply NoDup_Permutation;
    [apply accumulateBuffer_contents_distinct|done|].
  intros c. split.
  - intros Hc. apply list_elem_of_fmap in Hc as (y & -> & Hy).
    apply accumulateBuffer_elem in Hy as [[_ ?]|[Hy _]]; try done.
    by apply list_elem_of_fmap_2.
  - intros Hc. apply list_elem_of_fmap in Hc as (v & -> & Hv).
    destruct (decide (s v ∈ s <$> buffer)) as [Hold|Hnew].
    + apply list_elem_of_fmap in Hold as (x & Heq & Hx). rewrite Heq.
      apply list_elem_of_fmap_2. apply accumulateBuffer_elem; try done.
      left. split; [done|]. rewrite <- Heq. by apply list_elem_of_fmap_2.
    + apply list_elem_of_fmap_2. apply accumulateBuffer_elem; try done.
      by right.
Qed.

End NextBufferContents.

(** X7. Recycling keeps identities: an object of the buffer whose contents
    occur in the new projection stays in the next buffer as the same
    object, whatever else the two lists hold. *)
Theorem accumulateBuffer_keeps_visible_objects {A} `{EqDecision A}
    (s : store A) (buffer visibleItems : list ref) (x : ref) :
  x ∈ buffer → s x ∈ s <$> visibleItems →
  x ∈ accumulateBuffer s buffer visibleItems.
Proof. apply accumulateBuffer_keeps. Qed.

Lemma accumulateBuffer_keeps_visible_objects_witness :
  (1 ∈ accumulateBuffer sample_store [0; 1; 5]%nat [3; 2]%nat)%nat.
Proof.
  apply (accumulateBuffer_keeps_visible_objects sample_store
           [0; 1; 5]%nat [3; 2]%nat 1%nat).
  - apply (bool_decide_eq_true_1 _). vm_compute. reflexivity.
  - apply (bool_decide_eq_true_1 _). vm_compute. reflexivity.
Defined.

(** X8. Recycling invents nothing: every object of the next buffer is an
    object of the previous buffer or of the new projection. *)
Theorem accumulateBuffer_no_new_objects {A} `{EqDecision A}
    (s : store A) (buffer visibleItems : list ref) (y : ref) :
  y ∈ accumulateBuffer s buffer visibleItems →
  y ∈ buffer ∨ y ∈ visibleItems.
Proof. apply accumulateBuffer_from. Qed.

Lemma accumulateBuffer_no_new_objects_witness :
  (3 ∈ [0; 1; 5] ∨ 3 ∈ [3; 2])%nat.
Proof.
  apply (accumulateBuffer_no_new_objects sample_store
           [0; 1; 5]%nat [3; 2]%nat 3%nat).
  apply (bool_decide_eq_true_1 _). vm_compute. reflexivity.
Defined.

(** X9. An empty projection empties the buffer, whatever it held. *)
Theorem accumulateBuffer_empty_projection {A} `{EqDecision A}
    (s : store A) (buffer : list ref) :
  accumulateBuffer s buffer [] = [].
Proof. by apply accumulateBuffer_nothing_visible. Qed.

(** X10. When the buffer holds pairwise different contents and so does the
    projection, the next buffer consists of the objects of the buffer whose
    contents are projected and of the objects of the projection whose
    contents are new; its contents are those of the projection, each once,
    and it is as long as the projection. *)
Theorem accumulateBuffer_shows_projection {A} `{EqDecision A}
    (s : store A) (buffer visibleItems : list ref) :
  NoDup (s <$> buffer) → NoDup (s <$> visibleItems) →
  (∀ y, y ∈ accumulateBuffer s buffer visibleItems
        ↔ (y ∈ buffer ∧ s y ∈ s <$> visibleItems)
          ∨ (y ∈ visibleItems ∧ s y ∉ s <$> buffer))
  ∧ NoDup (s <$> accumulateBuffer s buffer visibleItems)
  ∧ s <$> accumulateBuffer s buffer visibleItems ≡ₚ s <$> visibleItems
  ∧ length (accumulateBuffer s buffer visibleItems) = length visibleItems.
Proof.
  intros HB HV. split; [|split; [|split]].
  - intros y. by apply accumulateBuffer_elem.
  - by apply accumulateBuffer_contents_distinct.
  - by apply accumulateBuffer_contents.
  - rewrite <- (length_fmap s), <- (length_fmap s visibleItems).
    apply Permutation_length. by apply accumulateBuffer_contents.
Qed.

Lemma accumulateBuffer_shows_projection_witness :
  (∀ y, y ∈ accumulateBuffer sample_store [0; 1; 4]%nat [3; 2; 5]%nat
        ↔ (y ∈ [0; 1; 4]%nat
           ∧ sample_store y ∈ sample_store <$> [3; 2; 5]%nat)
          ∨ (y ∈ [3; 2; 5]%nat
             ∧ sample_store y ∉ sample_store <$> [0; 1; 4]%nat))
  ∧ NoDup (sample_store <$> accumulateBuffer sample_store
                              [0; 1; 4]%nat [3; 2; 5]%nat)
  ∧ sample_store <$> accumulateBuffer sample_store [0; 1; 4]%nat [3; 2; 5]%nat
    ≡ₚ sample_store <$> [3; 2; 5]%nat
  ∧ length (accumulateBuffer sample_store [0; 1; 4]%nat [3; 2; 5]%nat)
    = length [3; 2; 5]%nat.
Proof.
  apply (accumulateBuffer_shows_projection sample_store
           [0; 1; 4]%nat [3; 2; 5]%nat).
  - apply (bool_decide_eq_true_1 _). vm_compute. reflexivity.
  - apply (bool_decide_eq_true_1 _). vm_compute. reflexivity.
Defined.

Section ScanInvariant.
Context {S X : Type} (f : S → X → S).

Lemma scan_Forall2_inv (I : S → Prop) (P : X → Prop) (Q : S → X → Prop)
    (l : list X) :
  (∀ acc x, I acc → P x → Q (f acc x) x ∧ I (f acc x)) →
  Forall P l → ∀ seed, I seed → Forall2 Q (scan f seed l) l.
Proof.
  intros Hstep Hl. induction Hl as [|x l Hx _ IH]; intros seed Hseed; simpl.
  - constructor.
  - destruct (Hstep seed x Hseed Hx) as [HQ HI]. constructor; [done|].
    by apply IH.
Qed.

End ScanInvariant.

(** X11. [buffer$] shows what is projected: when every projection holds
    pairwise different contents, every buffer that is emitted holds the
    contents of its projection, each once. *)
Theorem buffer_stream_shows_projections {A} `{EqDecision A}
    (s : store A) (projections : list (list ref)) :
  Forall (λ visibleItems, NoDup (s <$> visibleItems)) projections →
  Forall2 (λ buffer visibleItems, s <$> buffer ≡ₚ s <$> visibleItems)
    (buffer_stream s projections) projections.
Proof.
  intros Hall. unfold buffer_stream.
  apply (scan_Forall2_inv _ (λ buffer, NoDup (s <$> buffer))
           (λ visibleItems, NoDup (s <$> visibleItems))); [|done|constructor].
  intros buffer visibleItems HB HV. split.
  - by apply accumulateBuffer_contents.
  - by apply accumulateBuffer_contents_distinct.
Qed.

Lemma buffer_stream_shows_projections_witness :
  Forall2 (λ buffer visibleItems,
             sample_store <$> buffer ≡ₚ sample_store <$> visibleItems)
    (buffer_stream sample_store [[0; 1]; [2; 3; 4]; [5; 4]]%nat)
    [[0; 1]; [2; 3; 4]; [5; 4]]%nat.
Proof.
  apply (buffer_stream_shows_projections sample_store
           [[0; 1]; [2; 3; 4]; [5; 4]]%nat).
  repeat constructor; apply (bool_decide_eq_true_1 _); vm_compute; reflexivity.
Defined.

(** ** The page resolver, in general *)

Section PageNumbers.

Lemma Qfloor_inject_div (a b : Z) :
  Qfloor (inject_Z a / inject_Z b) = a `div` b.
Proof. symmetry. apply Zdiv_Qdiv. Qed.

Lemma Qceiling_inject_div (a b : Z) :
  b ≠ 0 → Qceiling (inject_Z a / inject_Z b) = - ((- a) `div` b).
Proof.
  intros Hb. unfold Qceiling. f_equal.
  rewrite <- Qfloor_inject_div. apply Qfloor_comp.
  rewrite inject_Z_opp. field.
  intros Hz. unfold Qeq in Hz. simpl in Hz. lia.
Qed.

(** The pages as integer quotients: from [floor (offset / pageSize)] up to,
    not including, [ceil (min (offset + length) totalLength / pageSize)]. *)
Lemma getObservableOfVisiblePageNumbers_range bm totalLength pageSize :
  pageSize ≠ 0 →
  getObservableOfVisiblePageNumbers bm totalLength pageSize
  = Some (range (bufferedOffset bm `div` pageSize)
            (- ((- Z.min (bufferedOffset bm + bufferedLength bm) totalLength)
                  `div` pageSize)
             - bufferedOffset bm `div` pageSize)).
Proof.
  intros Hps. unfold getObservableOfVisiblePageNumbers.
  rewrite !div_inject_Z by done.
  cbn [fmap option_fmap option_map mbind option_bind].
  by rewrite Qfloor_inject_div, Qceiling_inject_div.
Qed.

(** [ceil (m / b)] is the least integer [c] with [m ≤ b * c]. *)
Lemma ceil_div_bounds (m b : Z) :
  0 < b →
  m ≤ b * - ((- m) `div` b) ∧ b * - ((- m) `div` b) < m + b.
Proof.
  intros Hb.
  pose proof (Z.mul_div_le (- m) b Hb).
  pose proof (Z.mul_succ_div_gt (- m) b Hb). lia.
Qed.

End PageNumbers.

(** X13. The pages cover the window: for a positive page size, the page of
    every index of the window that lies below [totalLength] is emitted. *)
Theorem visible_pages_cover_window (bm : BufferMeta)
    (totalLength pageSize i : Z) :
  0 < pageSize →
  bufferedOffset bm ≤ i →
  i < Z.min (bufferedOffset bm + bufferedLength bm) totalLength →
  ∃ pages,
    getObservableOfVisiblePageNumbers bm totalLength pageSize = Some pages
    ∧ i `div` pageSize ∈ pages.
Proof.
  intros Hps Hlo Hhi.
  rewrite getObservableOfVisiblePageNumbers_range by lia.
  eexists. split; [reflexivity|]. apply elem_of_range.
  set (m := Z.min _ _) in *.
  destruct (ceil_div_bounds m pageSize Hps) as [Hc _].
  split.
  - by apply Z.div_le_mono.
  - apply Z.div_lt_upper_bound; lia.
Qed.

Lemma visible_pages_cover_window_witness :
  ∃ pages,
    getObservableOfVisiblePageNumbers sample_window 70 20 = Some pages
    ∧ 69 `div` 20 ∈ pages.
Proof.
  apply (visible_pages_cover_window sample_window 70 20 69);
    unfold sample_window; simpl; lia.
Defined.

(** X14. No page is requested in vain: when the window holds an index below
    [totalLength], every page that is emitted holds such an index. *)
Theorem visible_pages_are_needed (bm : BufferMeta)
    (totalLength pageSize : Z) (pages : list Z) (p : Z) :
  0 < pageSize →
  bufferedOffset bm < Z.min (bufferedOffset bm + bufferedLength bm) totalLength →
  getObservableOfVisiblePageNumbers bm totalLength pageSize = Some pages →
  p ∈ pages →
  ∃ i, bufferedOffset bm ≤ i
       ∧ i < Z.min (bufferedOffset bm + bufferedLength bm) totalLength
       ∧ i `div` pageSize = p.
Proof.
  intros Hps Hwin Hpages Hp.
  rewrite getObservableOfVisiblePageNumbers_range in Hpages by lia.
  injection Hpages as <-. apply elem_of_range in Hp.
  set (m := Z.min _ _) in *.
  destruct (ceil_div_bounds m pageSize Hps) as [_ Hc].
  pose proof (Z.mul_div_le (bufferedOffset bm) pageSize Hps).
  pose proof (Z.mul_succ_div_gt (bufferedOffset bm) pageSize Hps).
  destruct (decide (p = bufferedOffset bm `div` pageSize)) as [->|Hne].
  - exists (bufferedOffset bm). repeat split; lia.
  - exists (p * pageSize). repeat split; [nia|nia|].
    by apply Z.div_mul, Z.neq_sym, Z.lt_neq.
Qed.

Lemma visible_pages_are_needed_witness :
  ∃ i, 25 ≤ i ∧ i < 70 ∧ i `div` 20 = 3.
Proof.
  apply (visible_pages_are_needed sample_window 70 20 [1; 2; 3] 3).
  - lia.
  - unfold sample_window; simpl; lia.
  - reflexivity.
  - apply (bool_decide_eq_true_1 _). vm_compute. reflexivity.
Defined.

(** X15. An empty collection needs no page: with a total length of zero
    and a window that starts at an offset that is not negative, nothing is
    emitted. *)
Theorem visible_pages_of_empty_collection (bm : BufferMeta) (pageSize : Z) :
  0 < pageSize → 0 ≤ bufferedOffset bm →
  getObservableOfVisiblePageNumbers bm 0 pageSize = Some [].
Proof.
  intros Hps Hoff.
  rewrite getObservableOfVisiblePageNumbers_range by lia. f_equal.
  unfold range. rewrite decide_True; [done|].
  set (m := Z.min _ _).
  destruct (ceil_div_bounds m pageSize Hps) as [_ Hc].
  pose proof (Z.div_pos (bufferedOffset bm) pageSize Hoff Hps).
  assert (m ≤ 0) by (unfold m; lia). nia.
Qed.

Lemma visible_pages_of_empty_collection_witness :
  getObservableOfVisiblePageNumbers sample_window 0 20 = Some [].
Proof.
  apply (visible_pages_of_empty_collection sample_window 20);
    unfold sample_window; simpl; lia.
Defined.

(** X16. The pipeline never asks for a negative page: the window that
    [getBufferMeta] computes starts at an offset that is not negative, and
    the pages that are emitted for it, for a positive page size, are not
    negative. *)
Theorem pipeline_page_numbers_nonnegative (w h : Q) (m : ResizeMeasurement)
    (bm : BufferMeta) (totalLength pageSize : Z) (pages : list Z) :
  0 < pageSize →
  getBufferMeta w h m = Some bm →
  getObservableOfVisiblePageNumbers bm totalLength pageSize = Some pages →
  0 ≤ bufferedOffset bm ∧ Forall (λ p, 0 ≤ p) pages.
Proof.
  intros Hps Hbm Hpages.
  assert (0 ≤ bufferedOffset bm) as Hoff.
  { unfold getBufferMeta in Hbm.
    repeat (destruct (Num.and_then _ _);
            cbn [mbind option_bind] in Hbm; try done).
    injection Hbm as <-. simpl. lia. }
  split; [done|].
  rewrite getObservableOfVisiblePageNumbers_range in Hpages by lia.
  injection Hpages as <-. apply Forall_forall. intros p Hp.
  apply elem_of_range in Hp.
  pose proof (Z.div_pos (bufferedOffset bm) pageSize Hoff Hps). lia.
Qed.

Lemma pipeline_page_numbers_nonnegative_witness :
  0 ≤ bufferedOffset {| bufferedOffset := 20; bufferedLength := 42 |}
  ∧ Forall (λ p, 0 ≤ p) [1; 2; 3].
Proof.
  apply (pipeline_page_numbers_nonnegative 600 1100 sample_measurement
           {| bufferedOffset := 20; bufferedLength := 42 |} 1000 20 [1; 2; 3]).
  - lia.
  - reflexivity.
  - reflexivity.
Defined.

(** ** The page-number stream, in general *)

Section PageNumberStream.
Implicit Types (st : subscription) (e : emission) (keys : gset Z).

(** [distinct] over the values of a range: what is passed on is what is new
    to the keys, once, and the keys grow by the values. *)
Lemma distinct_next_spec keys (values : list Z) :
  NoDup (distinct_next keys values).2
  ∧ (∀ n, n ∈ (distinct_next keys values).2 ↔ n ∈ values ∧ n ∉ keys)
  ∧ (∀ n, n ∈ (distinct_next keys values).1 ↔ n ∈ keys ∨ n ∈ values).
Proof.
  revert keys. induction values as [|v values IH]; intros keys; simpl.
  - split; [constructor|]. split; intros n; rewrite elem_of_nil; tauto.
  - destruct (decide (v ∈ keys)) as [Hin|Hnew].
    + destruct (IH keys) as (Hnd & Hout & Hkeys).
      split; [done|]. split; intros n.
      * rewrite Hout, elem_of_cons. split; [tauto|].
        intros [[-> | ?] ?]; [done|tauto].
      * rewrite Hkeys, elem_of_cons. split; [tauto|].
        intros [? | [-> | ?]]; tauto.
    + specialize (IH ({[v]} ∪ keys)).
      destruct (distinct_next ({[v]} ∪ keys) values) as [final out].
      simpl in *. destruct IH as (Hnd & Hout & Hkeys). split; [|split].
      * constructor; [|done].
        rewrite Hout, elem_of_union, elem_of_singleton. tauto.
      * intros n.
        rewrite !elem_of_cons, Hout, elem_of_union, elem_of_singleton.
        split; [intros [-> | ?]; tauto|].
        intros [[-> | ?] ?]; [by left|].
        destruct (decide (n = v)); tauto.
      * intros n.
        rewrite Hkeys, elem_of_cons, elem_of_union, elem_of_singleton. tauto.
Qed.

(** A page size that is not zero gives a range. *)
Lemma visiblePageNumbers_is_Some st :
  latestPageSize st ≠ Some 0 → is_Some (visiblePageNumbers st).
Proof.
  intros Hps. unfold visiblePageNumbers.
  destruct (latestBufferMeta st), (latestLength st), (latestPageSize st);
    eauto.
  rewrite getObservableOfVisiblePageNumbers_range by congruence. eauto.
Qed.

(** An emission of [bufferMeta$] or of [length$]. *)
Lemma pageNumber_next_no_flush st e :
  latestPageSize st ≠ Some 0 → is_flush e = false →
  ∃ st' out,
    pageNumber_next st e = Some (st', out)
    ∧ latestPageSize st' = latestPageSize st
    ∧ NoDup out
    ∧ (∀ n, n ∈ out → n ∉ distinctKeys st)
    ∧ (∀ n, n ∈ distinctKeys st' ↔ n ∈ distinctKeys st ∨ n ∈ out)
    ∧ (∀ values, visiblePageNumbers st' = Some values →
                 ∀ n, n ∈ values → n ∈ distinctKeys st').
Proof.
  intros Hps He.
  assert (latestPageSize (combineLatest_next st e) = latestPageSize st
          ∧ distinctKeys (combineLatest_next st e) = distinctKeys st)
    as [Hsize Hkeep] by (by destruct e).
  destruct (visiblePageNumbers_is_Some (combineLatest_next st e))
    as [values Hvalues]; [by rewrite Hsize|].
  pose proof (distinct_next_spec (distinctKeys st) values)
    as (Hnd & Hout & Hkeys).
  assert (pageNumber_next st e
          = Some ({| latestBufferMeta :=
                       latestBufferMeta (combineLatest_next st e);
                     latestLength := latestLength (combineLatest_next st e);
                     latestPageSize :=
                       latestPageSize (combineLatest_next st e);
                     distinctKeys :=
                       (distinct_next (distinctKeys st) values).1 |},
                  (distinct_next (distinctKeys st) values).2)) as ->.
  { unfold pageNumber_next, source_next, flushes_next. rewrite He.
    destruct e; try done; rewrite Hvalues; cbn [mbind option_bind];
      rewrite Hkeep; by destruct (distinct_next _ _). }
  do 2 eexists. split; [reflexivity|]. cbn [latestPageSize distinctKeys].
  split; [done|]. split; [done|].
  split; [intros n Hn; apply Hout in Hn; tauto|].
  split.
  - intros n. rewrite Hkeys. split; [|intros [? | Hn]; [tauto|]].
    + intros [? | Hn]; [tauto|].
      destruct (decide (n ∈ distinctKeys st)); [tauto|].
      right. apply Hout. tauto.
    + apply Hout in Hn. tauto.
  - intros values' Hvalues' n Hn.
    assert (values' = values) as ->.
    { unfold visiblePageNumbers in *. cbn in Hvalues'. congruence. }
    apply Hkeys. tauto.
Qed.

(** A run of such emissions. *)
Lemma pageNumber_run_no_flush st (es : list emission) :
  latestPageSize st ≠ Some 0 →
  Forall (λ e, is_flush e = false) es →
  ∃ final outs,
    pageNumber_run st es = Some (final, outs)
    ∧ latestPageSize final = latestPageSize st
    ∧ NoDup (concat outs)
    ∧ (∀ n, n ∈ concat outs → n ∉ distinctKeys st)
    ∧ (∀ n, n ∈ distinctKeys final ↔ n ∈ distinctKeys st ∨ n ∈ concat outs)
    ∧ (es ≠ [] →
       ∀ values, visiblePageNumbers final = Some values →
                 ∀ n, n ∈ values → n ∈ distinctKeys final).
Proof.
  intros Hps Hes. revert st Hps.
  induction Hes as [|e es He _ IH]; intros st Hps.
  - exists st, []. simpl. split; [done|]. split; [done|].
    split; [constructor|].
    split; [intros n; by rewrite elem_of_nil|].
    split; [intros n; rewrite elem_of_nil; tauto|done].
  - destruct (pageNumber_next_no_flush st e Hps He)
      as (st' & out & Hnext & Hsize & Hnd & Hfresh & Hkeys & Hwin).
    destruct (IH st') as (final & outs & Hrun & Hsize' & Hnd' & Hfresh'
                          & Hkeys' & Hwin'); [by rewrite Hsize|].
    exists final, (out :: outs). simpl. rewrite Hnext.
    cbn [mbind option_bind]. rewrite Hrun. cbn [mbind option_bind].
    split; [done|]. split; [by rewrite Hsize'|].
    split.
    { apply NoDup_app. split; [done|]. split; [|done].
      intros n Hn Hn'. apply (Hfresh' n Hn'). apply Hkeys. tauto. }
    split.
    { intros n Hn Hk. apply elem_of_app in Hn as [Hn|Hn].
      - by apply (Hfresh n).
      - apply (Hfresh' n Hn). apply Hkeys. tauto. }
    split.
    { intros n. rewrite Hkeys', Hkeys, elem_of_app. tauto. }
    intros _. destruct es as [|e' es'].
    + simpl in Hrun. injection Hrun as <- <-. exact Hwin.
    + by apply Hwin'.
Qed.

End PageNumberStream.

(** X12. While neither the page size nor the page provider emits, no page
    number is emitted twice, whatever windows and lengths arrive, and none
    that the keys hold already; the keys grow by what is emitted.  The
    page size is not zero. *)
Theorem pageNumber_once_between_flushes (st : subscription)
    (es : list emission) :
  latestPageSize st ≠ Some 0 →
  Forall (λ e, is_flush e = false) es →
  ∃ final outs,
    pageNumber_run st es = Some (final, outs)
    ∧ NoDup (concat outs)
    ∧ (∀ n, n ∈ concat outs → n ∉ distinctKeys st)
    ∧ (∀ n, n ∈ distinctKeys final ↔ n ∈ distinctKeys st ∨ n ∈ concat outs).
Proof.
  intros Hps Hes.
  destruct (pageNumber_run_no_flush st es Hps Hes)
    as (final & outs & Hrun & _ & Hnd & Hfresh & Hkeys & _).
  by exists final, outs.
Qed.

Lemma pageNumber_once_between_flushes_witness :
  ∃ final outs,
    pageNumber_run sample_subscription sample_windows = Some (final, outs)
    ∧ NoDup (concat outs)
    ∧ (∀ n, n ∈ concat outs → n ∉ distinctKeys sample_subscription)
    ∧ (∀ n, n ∈ distinctKeys final
            ↔ n ∈ distinctKeys sample_subscription ∨ n ∈ concat outs).
Proof.
  apply (pageNumber_once_between_flushes sample_subscription sample_windows).
  - discriminate.
  - unfold sample_windows. repeat constructor.
Defined.

(** X28. From empty keys, as every emission of the page size or of the
    page provider leaves them, and while neither emits again: once a
    window or a length has arrived, every page of the latest window has
    been emitted. *)
Theorem pageNumber_window_is_emitted (st : subscription)
    (es : list emission) :
  latestPageSize st ≠ Some 0 → distinctKeys st = ∅ →
  Forall (λ e, is_flush e = false) es → es ≠ [] →
  ∃ final outs values,
    pageNumber_run st es = Some (final, outs)
    ∧ visiblePageNumbers final = Some values
    ∧ ∀ n, n ∈ values → n ∈ concat outs.
Proof.
  intros Hps Hempty Hes Hne.
  destruct (pageNumber_run_no_flush st es Hps Hes)
    as (final & outs & Hrun & Hsize & _ & _ & Hkeys & Hwin).
  destruct (visiblePageNumbers_is_Some final) as [values Hvalues];
    [by rewrite Hsize|].
  exists final, outs, values. split; [done|]. split; [done|].
  intros n Hn. apply (Hwin Hne values Hvalues), Hkeys in Hn.
  rewrite Hempty in Hn. destruct Hn as [Hn|Hn]; [|done].
  by apply not_elem_of_empty in Hn.
Qed.

Lemma pageNumber_window_is_emitted_witness :
  ∃ final outs values,
    pageNumber_run fresh_subscription sample_windows = Some (final, outs)
    ∧ visiblePageNumbers final = Some values
    ∧ ∀ n, n ∈ values → n ∈ concat outs.
Proof.
  apply (pageNumber_window_is_emitted fresh_subscription sample_windows).
  - discriminate.
  - reflexivity.
  - unfold sample_windows. repeat constructor.
  - discriminate.
Defined.



(** ** The buffer window, in general *)

Section WindowGeometry.



End WindowGeometry.



(** ** The stream of windows *)

Section DistinctUntilChanged.
Context {X : Type} `{EqDecision X}.
Implicit Types (l : list X) (previous : option X).

Lemma distinctUntilChanged_loop_head previous l x :
  head (distinctUntilChanged_loop previous l) = Some x → previous ≠ Some x.
Proof.
  induction l as [|y l IH]; simpl; [done|].
  case_decide as Hy; [done|]. simpl. by intros [= ->].
Qed.

Lemma distinctUntilChanged_loop_adjacent previous l (i : nat) a b :
  distinctUntilChanged_loop previous l !! i = Some a →
  distinctUntilChanged_loop previous l !! S i = Some b →
  a ≠ b.
Proof.
  revert previous i. induction l as [|y l IH]; intros previous i; simpl; [done|].
  case_decide as Hy; [apply IH|].
  destruct i as [|i]; simpl; [|apply IH].
  intros [= ->] Hb Heq. subst b.
  apply (distinctUntilChanged_loop_head (Some a) l a); [|done].
  by rewrite head_lookup.
Qed.

(** What was passed on last, after [l], is the last value of [l]. *)
Lemma distinctUntilChanged_loop_last previous l :
  from_option Some previous (last (distinctUntilChanged_loop previous l))
  = from_option Some previous (last l).
Proof.
  revert previous. induction l as [|y l IH]; intros previous; simpl; [done|].
  case_decide as Hy.
  - rewrite IH. rewrite Hy. by destruct l.
  - specialize (IH (Some y)).
    rewrite last_cons. destruct (last (distinctUntilChanged_loop _ l));
      simpl in *; rewrite last_cons; by destruct (last l).
Qed.

Lemma distinctUntilChanged_loop_repeat previous l x :
  distinctUntilChanged_loop previous (l ++ [x; x])
  = distinctUntilChanged_loop previous (l ++ [x]).
Proof.
  revert previous. induction l as [|y l IH]; intros previous; simpl.
  - case_decide; [done|]. by rewrite decide_True.
  - case_decide; by rewrite IH.
Qed.

End DistinctUntilChanged.

(** X19. [bufferMeta$] does not repeat itself: two windows that are
    emitted one after the other are different. *)
Theorem bufferMeta_stream_no_repeat (w : Q)
    (latest : list (Q * ResizeMeasurement)) (i : nat)
    (a b : option BufferMeta) :
  bufferMeta_stream w latest !! i = Some a →
  bufferMeta_stream w latest !! S i = Some b →
  a ≠ b.
Proof. apply distinctUntilChanged_loop_adjacent. Qed.

Lemma bufferMeta_stream_no_repeat_witness :
  Some {| bufferedOffset := 0; bufferedLength := 42 |}
  ≠ Some {| bufferedOffset := 20; bufferedLength := 42 |}.
Proof.
  apply (bufferMeta_stream_no_repeat 600 sample_scroll 0); reflexivity.
Defined.

(** X20. [bufferMeta$] is up to date: the window that was emitted last is
    the window of the latest height above the window and measurement. *)
Theorem bufferMeta_stream_current (w : Q)
    (latest : list (Q * ResizeMeasurement)) :
  last (bufferMeta_stream w latest)
  = (λ hm, getBufferMeta w hm.1 hm.2) <$> last latest.
Proof.
  unfold bufferMeta_stream, distinctUntilChanged.
  pose proof (distinctUntilChanged_loop_last None
                ((λ hm, getBufferMeta w hm.1 hm.2) <$> latest)) as Hlast.
  rewrite fmap_last in Hlast.
  destruct (last (distinctUntilChanged_loop _ _)), (last latest);
    simpl in *; congruence.
Qed.

(** X21. A scroll inside one row emits no window: when the latest height
    above the window gives the same rounded-down quotient as the one
    before, under the same measurement, [bufferMeta$] emits nothing for
    it.  The quotients are those of doubles. *)
Theorem bufferMeta_stream_same_row w h1 h2 (m : Binary64.ResizeMeasurement)
    (latest : list (PrimFloat.float * Binary64.ResizeMeasurement)) (row : Z) :
  Binary64.floor ((h1 + Binary64.rowGap m) / Binary64.itemHeightWithGap m)%float
  = Some row →
  Binary64.floor ((h2 + Binary64.rowGap m) / Binary64.itemHeightWithGap m)%float
  = Some row →
  Binary64.bufferMeta_stream w (latest ++ [(h1, m); (h2, m)])
  = Binary64.bufferMeta_stream w (latest ++ [(h1, m)]).
Proof.
  intros Hrow1 Hrow2. unfold Binary64.bufferMeta_stream, distinctUntilChanged.
  rewrite !fmap_app. simpl.
  assert (Binary64.getBufferMeta w h2 m = Binary64.getBufferMeta w h1 m)
    as ->.
  { unfold Binary64.getBufferMeta. by rewrite Hrow1, Hrow2. }
  apply distinctUntilChanged_loop_repeat.
Qed.

Lemma bufferMeta_stream_same_row_witness :
  Binary64.bufferMeta_stream Binary64.sample_viewport
    (Binary64.sample_scroll
       ++ [(Binary64.sample_row.1, Binary64.sample_measurement);
           (Binary64.sample_row.2, Binary64.sample_measurement)])
  = Binary64.bufferMeta_stream Binary64.sample_viewport
      (Binary64.sample_scroll
         ++ [(Binary64.sample_row.1, Binary64.sample_measurement)]).
Proof.
  apply (bufferMeta_stream_same_row Binary64.sample_viewport
           Binary64.sample_row.1 Binary64.sample_row.2
           Binary64.sample_measurement Binary64.sample_scroll 241);
    vm_compute; reflexivity.
Defined.

(** ** The height of the content *)




(** X23. An empty collection has a content height of minus the row gap:
    not zero, and negative when there is a gap. *)
Theorem getContentHeight_empty (m : ResizeMeasurement) :
  columns m ≠ 0 →
  ∃ height,
    getContentHeight m 0 = Some height ∧ (height == - rowGap m)%Q.
Proof.
  intros Hcol. unfold getContentHeight.
  rewrite div_inject_Z by lia. cbn [mbind option_bind].
  eexists. split; [reflexivity|].
  rewrite Qceiling_inject_div by lia. change (- 0) with 0.
  rewrite Z.div_0_l by done. change (inject_Z (- 0)) with 0%Q. ring.
Qed.

Lemma getContentHeight_empty_witness :
  ∃ height,
    getContentHeight sample_measurement 0 = Some height ∧ (height == - 10)%Q.
Proof.
  apply (getContentHeight_empty sample_measurement). discriminate.
Defined.

(** ** Measuring the grid *)

Lemma length_split_loop (sep : Ascii.ascii) (piece s : string) :
  length (JsString.split_loop sep piece s) = S (JsString.count sep s).
Proof.
  revert piece. induction s as [|c s IH]; intros piece; simpl; [done|].
  case_decide; simpl; by rewrite IH.
Qed.

(** X24. The number of columns is one more than the number of spaces in the
    computed [grid-template-columns]; it is never zero, not even for an
    empty value. *)
Theorem getGridMeasurement_columns (parseInt : string → option Z)
    (computedStyle : string → string) :
  Grid.columns (getGridMeasurement parseInt computedStyle)
  = 1 + Z.of_nat (JsString.count JsString.space
                    (computedStyle "grid-template-columns"))
  ∧ 1 ≤ Grid.columns (getGridMeasurement parseInt computedStyle).
Proof.
  unfold getGridMeasurement, JsString.split. simpl.
  rewrite length_split_loop. lia.
Qed.

(** X25. The top of an element that is below the top of the viewport gives
    a height of zero, the top of an element that is above it gives the
    distance; the height above the window is never negative. *)
Theorem computeHeightAboveWindowOf_clamped (top : Q) :
  (0 <= computeHeightAboveWindowOf top)%Q
  ∧ ((0 <= top)%Q → (computeHeightAboveWindowOf top == 0)%Q)
  ∧ ((top <= 0)%Q → (computeHeightAboveWindowOf top == - top)%Q).
Proof.
  unfold computeHeightAboveWindowOf. split; [apply Qabs_nonneg|]. split.
  - intros Htop. rewrite Q.min_r by done. reflexivity.
  - intros Htop. rewrite Q.min_l by done. by apply Qabs_neg.
Qed.

Lemma computeHeightAboveWindowOf_clamped_witness :
  (0 <= computeHeightAboveWindowOf (- 7 # 2))%Q
  ∧ (computeHeightAboveWindowOf 12 == 0)%Q
  ∧ (computeHeightAboveWindowOf (- 7 # 2) == - (- 7 # 2))%Q.
Proof.
  destruct (computeHeightAboveWindowOf_clamped (- 7 # 2)) as (Hnn & _ & Hneg).
  destruct (computeHeightAboveWindowOf_clamped 12) as (_ & Hpos & _).
  split; [exact Hnn|]. split.
  - apply Hpos. discriminate.
  - apply Hneg. discriminate.
Defined.

(** ** The visible-item projector, in general *)

Section ProjectorMore.
Context {A : Type} (number_to_string : Q → string).
Implicit Types (allItems : list (Value A)).

Lemma slot_is_Some bm m (k : nat) (v : Value A) :
  columns m ≠ 0 → is_Some (slot number_to_string bm m k v).
Proof.
  intros Hcol. unfold slot, Num.rem.
  rewrite decide_False by done. rewrite div_inject_Z by done.
  cbn [fmap option_fmap option_map mbind option_bind]. eauto.
Qed.

Lemma getVisibleItems_is_Some bm m allItems :
  columns m ≠ 0 → is_Some (getVisibleItems number_to_string bm m allItems).
Proof.
  intros Hcol. unfold getVisibleItems. apply mapM_is_Some.
  apply Forall_lookup. intros i o Hi. rewrite list_lookup_imap in Hi.
  destruct (_ !! i) as [v|]; [|done]. injection Hi as <-.
  by apply slot_is_Some.
Qed.

Lemma getVisibleItems_imap bm m allItems :
  0 ≤ bufferedOffset bm → 0 ≤ bufferedLength bm → 0 < columns m →
  getVisibleItems number_to_string bm m allItems
  = Some (imap (λ (k : nat) (_ : Value A),
                  slot_at number_to_string m allItems
                    (bufferedOffset bm + Z.of_nat k))
            (take (Z.to_nat (bufferedLength bm))
               (drop (Z.to_nat (bufferedOffset bm)) allItems))).
Proof.
  intros Hoff Hlen Hcol. unfold getVisibleItems.
  rewrite slice_nonneg by lia.
  replace (bufferedOffset bm + bufferedLength bm - bufferedOffset bm)
    with (bufferedLength bm) by lia.
  apply mapM_imap_Some. intros k v Hk. apply slot_columns_pos; [done|done|].
  apply lookup_take_Some in Hk as [Hk _]. rewrite lookup_drop in Hk.
  rewrite <- Hk. f_equal. lia.
Qed.

End ProjectorMore.

(** X26. A grid that was measured can always be laid out: with the
    measurement that [getResizeMeasurement] reads from any computed style and
    item box, [getVisibleItems] computes its slots for every window and
    collection, since a measured grid has at least one column. *)
Theorem getVisibleItems_of_measured_grid {A} (number_to_string : Q → string)
    (parseInt : string → option Z) (computedStyle : string → string)
    (rect : DOMRectReadOnly) (bm : BufferMeta) (allItems : list (Value A)) :
  is_Some (getVisibleItems number_to_string bm
             (getResizeMeasurement parseInt computedStyle rect) allItems).
Proof.
  apply getVisibleItems_is_Some. unfold getResizeMeasurement.
  cbn [columns].
  unfold getGridMeasurement, JsString.split. cbn [Grid.columns].
  rewrite length_split_loop. lia.
Qed.

(** X27. The slots of a projection are pairwise different, because their
    indices are: for a window whose offset and length are not negative and a
    positive number of columns, no index and no slot occurs twice. *)
Theorem getVisibleItems_slots_distinct {A} (number_to_string : Q → string)
    (bm : BufferMeta) (m : ResizeMeasurement) (allItems : list (Value A)) :
  0 ≤ bufferedOffset bm → 0 ≤ bufferedLength bm → 0 < columns m →
  ∃ slots,
    getVisibleItems number_to_string bm m allItems = Some slots
    ∧ NoDup (index <$> slots) ∧ NoDup slots.
Proof.
  intros Hoff Hlen Hcol. rewrite getVisibleItems_imap by done.
  eexists. split; [reflexivity|].
  set (window := take _ _).
  assert (NoDup (index <$> imap (λ (k : nat) (_ : Value A),
                                    slot_at number_to_string m allItems
                                      (bufferedOffset bm + Z.of_nat k))
                             window)) as Hnd.
  { apply NoDup_alt. intros i j x Hi Hj.
    rewrite list_lookup_fmap, list_lookup_imap in Hi, Hj.
    destruct (window !! i); [|done]. destruct (window !! j); [|done].
    simpl in *. injection Hi as <-. injection Hj as Hj. lia. }
  split; [done|]. by apply (NoDup_fmap_1 index).
Qed.

Lemma getVisibleItems_slots_distinct_witness :
  ∃ slots,
    getVisibleItems sample_number_to_string
      {| bufferedOffset := 1; bufferedLength := 4 |} sample_measurement
      sample_collection = Some slots
    ∧ NoDup (index <$> slots) ∧ NoDup slots.
Proof.
  apply (getVisibleItems_slots_distinct sample_number_to_string
           {| bufferedOffset := 1; bufferedLength := 4 |} sample_measurement
           sample_collection); simpl; lia.
Defined.
